(** * A shallow embedding of the file server of [server.go]

    The node stores named blobs locally, replicates them to every
    registered peer and fetches missing blobs from the network.  The
    embedding keeps the code's shape: every Go method is one definition
    of the same name, written in a state-and-error monad over a [World]
    that holds the [FileServer] fields together with the connection
    objects the registry points to and the traces of what the node did
    (bytes on the wire, registry accesses, printed lines).  [Start] and
    [bootstrapNetwork] only start the transport, dial and enter [loop];
    they are left to the transport, whose callbacks ([OnPeer]) and
    deliveries ([loop]) are what the node sees of it. *)

From Stdlib Require Import ZArith Lia Bool.
From Stdlib.Strings Require Import Byte.
From stdpp Require Import gmap strings list fin_maps.

Local Open Scope Z_scope.

Abbreviation byte := Init.Byte.byte.

(** ** Bytes and the fixed-width little-endian integers of [encoding/binary] *)

Definition Z_of_byte (b : byte) : Z := Z.of_N (Byte.to_N b).

Definition byte_of_Z (z : Z) : byte :=
  default Byte.x00 (Byte.of_N (Z.to_N (z mod 256))).

(** [n] bytes of [z], least significant first; on a negative [z] the
    floor division yields the two's complement digits. *)
Fixpoint le_bytes (n : nat) (z : Z) : list byte :=
  match n with
  | O => []
  | S n' => byte_of_Z z :: le_bytes n' (z / 256)
  end.

Fixpoint le_value (bs : list byte) : Z :=
  match bs with
  | [] => 0
  | b :: rest => Z_of_byte b + 256 * le_value rest
  end.

(** An [int64] is a [Z] kept in [-2^63, 2^63): [wrap64] is the
    wrap-around of Go's signed arithmetic. *)
Definition wrap64 (z : Z) : Z := (z + 2 ^ 63) mod 2 ^ 64 - 2 ^ 63.

(** [binary.Write(w, binary.LittleEndian, v)] for [v : int64]. *)
Definition putInt64 (v : Z) : list byte := le_bytes 8 v.

(** [binary.Read(r, binary.LittleEndian, &v)] once the 8 bytes are there. *)
Definition getInt64 (bs : list byte) : Z := wrap64 (le_value bs).

(** ** Messages *)

(** The two registered payload types ([init] registers both with gob). *)
Inductive payload : Type :=
  | MessageStoreFile (Key : string) (Size : Z)
  | MessageGetFile (Key : string).

(** [type Message struct { Payload any }]; [None] is the nil interface. *)
Record Message : Type := mkMessage { Payload : option payload }.

(** ** Errors and results *)

Inductive error : Type :=
  | ErrGob                          (* gob could not encode or decode *)
  | ErrConn (pid : nat)             (* write on a dead connection *)
  | ErrDisk                         (* the local store could not write *)
  | ErrNotExist (key : string)      (* store.Read of a missing blob *)
  | ErrCipher                       (* the ciphertext does not decrypt *)
  | ErrNeedToServe (key : string)   (* "need to serve file (%s) but it does not exists on disk" *)
  | ErrPeerNotInMap (from : string) (* "peer %s not in map" *)
  | ErrPeerNotFound (from : string) (* "peer (%s) could not be found in peerlist" *)
  | ErrUnexpectedEOF                (* fewer bytes than a fixed-size value needs *).

Inductive result (A : Type) : Type :=
  | Ok (a : A)
  | Err (e : error).
Arguments Ok {A} a.
Arguments Err {A} e.


(** ** Collaborators that are not part of this file *)

(** [encoding/gob].  [Encode] yields the bytes or an error.
    [Decode(&msg)] fills the message it is given as it goes and returns
    an error or nil: [gob_decode b] is what a zero [Message] has become
    after decoding [b], together with the error if there is one.  The
    payload is assigned once its value has been decoded, and what follows
    it in the bytes is read after that. *)
Class Gob : Type := {
  gob_encode : Message -> result (list byte);
  gob_decode : list byte -> Message * option error
}.

(** Modelled from the spec: the CipherStream collaborator ([copyEncrypt],
    and the decryption inside [Store.WriteDecrypt]) is declared in another
    file of the package.  Section 6 gives its interface: a copy that
    encrypts under a key and a write that decrypts under a key. *)
Class CipherStream : Type := {
  encrypt : list byte -> list byte -> list byte;
  decrypt : list byte -> list byte -> result (list byte)
}.

(** Modelled from the spec: the tag bytes [p2p.IncomingMessage] and
    [p2p.IncomingStream] (TAG_MESSAGE and TAG_STREAM of section 4.2) are
    constants of the [p2p] package. *)
Class Tags : Type := {
  IncomingMessage : byte;
  IncomingStream : byte
}.

(** ** Peers and connections *)

(** A [p2p.Peer] value: the identity of the connection object and the
    remote address it reports.  The mutable part of the connection lives
    in [conns], so that the registry and any local slice of peers alias
    the same object. *)
Record Peer : Type := mkPeer { pid : nat; RemoteAddr : string }.

(** Modelled from the spec: a peer connection (section 6: [Send], a
    blocking read, stream-consumed signalling).  [inbox] holds the bytes
    that are readable from the connection, in order, after which the
    remote end is closed; [credit] is the number of writes the
    connection still accepts before it breaks ([None]: it never breaks).
    A broken connection stays broken. *)
Record Conn : Type := mkConn { inbox : list byte; credit : option nat }.

Definition dead_conn : Conn := {| inbox := []; credit := Some O |}.

(** ** Traces *)

Inductive NetEv : Type :=
  | Sent (p : nat) (b : list byte)
  | SendFailed (p : nat) (b : list byte)
  | Received (p : nat) (b : list byte)
  | StreamClosed (p : nat)
  | Slept (ms : nat).

(** Accesses to [s.peers] and operations on [s.peerLock]. *)
Inductive SyncEv : Type :=
  | Lock
  | Unlock
  | PeersWrite (addr : string)
  | PeersLookup (addr : string)
  | PeersRange.

(** Lines printed with [fmt.Printf] and [log]. *)
Inductive Line : Type :=
  | ServingLocal (key : string)
  | FetchingFromNetwork (key : string)
  | ReceivedOverNetwork (n : Z) (from : string)
  | ReceivedAndWritten (n : Z)
  | ServingOverNetwork (key : string)
  | WrittenOverNetwork (n : Z) (to : string)
  | WrittenToDisk (n : Z)
  | Connected (addr : string)
  | DecodingError (e : error)
  | HandleMessageError (e : error)
  | ClosingReadCloser
  | Stopped.

(** ** The local blob store *)

(** Modelled from the spec: the BlobStore collaborator ([store.go] is not
    part of this file).  Section 6: [Has], [Read] giving size and
    content, [Write] and [WriteDecrypt] giving the bytes written or an
    error.  [diskFault] makes every write fail. *)
Record BlobStore : Type := mkStore {
  blobs : gmap string (list byte);
  diskFault : bool
}.

(** ** The world *)

(** [EncKey], [store], [quitCh] and [peers] are the fields of
    [FileServer] the code uses ([quitCh] is [true] once closed).  [conns]
    are the connection objects, [rangeOracle] supplies the order of each
    [range] over the registry (Go leaves it unspecified), and the rest
    records what happened. *)
Record World : Type := mkWorld {
  EncKey : list byte;
  store : BlobStore;
  quitCh : bool;
  peers : gmap string Peer;
  conns : gmap nat Conn;
  rangeOracle : list (list nat);
  transportClosed : bool;
  wire : list NetEv;
  sync : list SyncEv;
  console : list Line
}.

Definition set_store (f : BlobStore -> BlobStore) (w : World) : World :=
  mkWorld (EncKey w) (f (store w)) (quitCh w) (peers w) (conns w)
    (rangeOracle w) (transportClosed w) (wire w) (sync w) (console w).

Definition set_quitCh (b : bool) (w : World) : World :=
  mkWorld (EncKey w) (store w) b (peers w) (conns w)
    (rangeOracle w) (transportClosed w) (wire w) (sync w) (console w).

Definition set_peers (f : gmap string Peer -> gmap string Peer) (w : World) : World :=
  mkWorld (EncKey w) (store w) (quitCh w) (f (peers w)) (conns w)
    (rangeOracle w) (transportClosed w) (wire w) (sync w) (console w).

Definition set_conns (f : gmap nat Conn -> gmap nat Conn) (w : World) : World :=
  mkWorld (EncKey w) (store w) (quitCh w) (peers w) (f (conns w))
    (rangeOracle w) (transportClosed w) (wire w) (sync w) (console w).

Definition set_rangeOracle (o : list (list nat)) (w : World) : World :=
  mkWorld (EncKey w) (store w) (quitCh w) (peers w) (conns w)
    o (transportClosed w) (wire w) (sync w) (console w).

Definition set_transportClosed (b : bool) (w : World) : World :=
  mkWorld (EncKey w) (store w) (quitCh w) (peers w) (conns w)
    (rangeOracle w) b (wire w) (sync w) (console w).

Definition emit_net (e : NetEv) (w : World) : World :=
  mkWorld (EncKey w) (store w) (quitCh w) (peers w) (conns w)
    (rangeOracle w) (transportClosed w) (wire w ++ [e]) (sync w) (console w).

Definition emit_nets (es : list NetEv) (w : World) : World :=
  mkWorld (EncKey w) (store w) (quitCh w) (peers w) (conns w)
    (rangeOracle w) (transportClosed w) (wire w ++ es) (sync w) (console w).

Definition emit_sync (e : SyncEv) (w : World) : World :=
  mkWorld (EncKey w) (store w) (quitCh w) (peers w) (conns w)
    (rangeOracle w) (transportClosed w) (wire w) (sync w ++ [e]) (console w).

Definition emit_line (l : Line) (w : World) : World :=
  mkWorld (EncKey w) (store w) (quitCh w) (peers w) (conns w)
    (rangeOracle w) (transportClosed w) (wire w) (sync w) (console w ++ [l]).

(** ** The monad: a Go call changes the world and returns a value or an error *)

Definition M (A : Type) : Type := World -> World * result A.

Definition ret {A} (a : A) : M A := fun w => (w, Ok a).

Definition fail {A} (e : error) : M A := fun w => (w, Err e).

Definition bind {A B} (m : M A) (k : A -> M B) : M B :=
  fun w =>
    match m w with
    | (w', Ok a) => k a w'
    | (w', Err e) => (w', Err e)
    end.

(** A call whose error the code discards. *)
Definition discard {A} (m : M A) : M unit :=
  fun w => (fst (m w), Ok tt).

Definition act (f : World -> World) : M unit := fun w => (f w, Ok tt).

Definition ask {A} (f : World -> A) : M A := fun w => (w, Ok (f w)).

Definition lift {A} (r : result A) : M A := fun w => (w, r).

Declare Scope go_scope.
Delimit Scope go_scope with go.
Notation "x <- m ;; k" := (bind m (fun x => k))
  (at level 100, m at next level, right associativity) : go_scope.
Notation "m ;;; k" := (bind m (fun _ => k))
  (at level 100, right associativity) : go_scope.
Local Open Scope go_scope.

Definition Printf (l : Line) : M unit := act (emit_line l).

Definition Sleep (ms : nat) : M unit := act (emit_net (Slept ms)).

(** An error the code drops while keeping the zero value of the variable. *)
Definition recover {A} (d : A) (m : M A) : M A :=
  fun w =>
    match m w with
    | (w', Ok a) => (w', Ok a)
    | (w', Err _) => (w', Ok d)
    end.

(** ** Peer primitives *)

Definition conn_of (w : World) (p : Peer) : Conn :=
  default dead_conn (conns w !! pid p).

(** [peer.Write(b)] on the connection: a broken connection refuses the
    bytes, any other takes them all. *)
Definition peer_Write (p : Peer) (b : list byte) : M unit :=
  fun w =>
    let c := conn_of w p in
    match credit c with
    | Some O => (emit_net (SendFailed (pid p) b) w, Err (ErrConn (pid p)))
    | cr =>
        (emit_net (Sent (pid p) b)
           (set_conns <[pid p := mkConn (inbox c) (Nat.pred <$> cr)]> w),
         Ok tt)
    end.

(** Modelled from the spec: [peer.Send(b)] of the [p2p] package, one
    write of [b] on the connection. *)
Definition peer_Send (p : Peer) (b : list byte) : M unit := peer_Write p b.

(** Reading a bounded number of bytes off the connection until the bound
    or the end of input: what a consumer of [io.LimitReader(peer, n)]
    gets, and what [io.ReadFull] gets for a buffer of [n] bytes. *)
Definition peer_Read (p : Peer) (n : nat) : M (list byte) :=
  fun w =>
    let c := conn_of w p in
    (emit_net (Received (pid p) (take n (inbox c)))
       (set_conns <[pid p := mkConn (drop n (inbox c)) (credit c)]> w),
     Ok (take n (inbox c))).

(** [binary.Read(peer, binary.LittleEndian, &v)] with [v : int64]. *)
Definition binary_Read (p : Peer) : M Z :=
  b <- peer_Read p 8 ;;
  if (length b =? 8)%nat then ret (getInt64 b) else fail ErrUnexpectedEOF.

(** [binary.Write(peer, binary.LittleEndian, v)] with [v : int64]. *)
Definition binary_Write (p : Peer) (v : Z) : M unit :=
  peer_Write p (putInt64 v).

(** Modelled from the spec: [peer.CloseStream()] of the [p2p] package,
    the stream-consumed signal of section 6. *)
Definition peer_CloseStream (p : Peer) : M unit :=
  act (emit_net (StreamClosed (pid p))).

(** [io.Copy(peer, r)]: nothing is written for an empty source; the
    content read is written as it comes (here at once). *)
Definition io_Copy (p : Peer) (r : list byte) : M Z :=
  match r with
  | [] => ret 0
  | _ => peer_Write p r ;;; ret (Z.of_nat (length r))
  end.

(** [io.MultiWriter(ws...).Write(b)]: each writer in turn, stopping at
    the first error. *)
Fixpoint multi_Write (ws : list Peer) (b : list byte) : M unit :=
  match ws with
  | [] => ret tt
  | p :: rest => peer_Write p b ;;; multi_Write rest b
  end.

(** ** Store primitives *)

Definition put (key : string) (bs : list byte) (st : BlobStore) : BlobStore :=
  mkStore (<[key := bs]> (blobs st)) (diskFault st).

(** Modelled from the spec: [Store.Has], [Store.Read], [Store.Write] and
    [Store.WriteDecrypt] of [store.go], after section 6.  A blob is read
    back as it was written, with its size. *)
Definition store_Has (key : string) : M bool :=
  ask (fun w => bool_decide (is_Some (blobs (store w) !! key))).

Definition store_Read (key : string) : M (Z * list byte) :=
  fun w =>
    match blobs (store w) !! key with
    | Some bs => (w, Ok (Z.of_nat (length bs), bs))
    | None => (w, Err (ErrNotExist key))
    end.

(** Opening the file for writing fails on a faulty disk. *)
Definition when_disk_ok {A} (m : M A) : M A :=
  fun w => if diskFault (store w) then (w, Err ErrDisk) else m w.

(** The reader [r] is drained only once the file could be opened. *)
Definition store_Write (key : string) (r : M (list byte)) : M Z :=
  when_disk_ok
    (bs <- r ;;
     act (set_store (put key bs)) ;;;
     ret (Z.of_nat (length bs))).

(** The stream found at the head of a connection: the length announced
    by its first 8 bytes and the bytes a read bounded by that length
    yields. *)
Definition answer_size (c : Conn) : Z := getInt64 (take 8 (inbox c)).

Definition answer_body (c : Conn) : list byte :=
  take (Z.to_nat (answer_size c)) (drop 8 (inbox c)).

Definition answer_rest (c : Conn) : Conn :=
  mkConn (drop (Z.to_nat (answer_size c)) (drop 8 (inbox c))) (credit c).


Section Server.
Context {gob : Gob} {cipher : CipherStream} {tags : Tags}.

(** Modelled from the spec: [Store.WriteDecrypt], which writes what the
    reader yields, decrypted under [encKey]; bytes that do not decrypt
    leave the store as it was. *)
Definition store_WriteDecrypt (encKey : list byte) (key : string)
    (r : M (list byte)) : M Z :=
  when_disk_ok
    (ct <- r ;;
     pt <- lift (decrypt encKey ct) ;;
     act (set_store (put key pt)) ;;;
     ret (Z.of_nat (length pt))).

(** Modelled from the spec: [copyEncrypt(key, src, dst)] is declared in
    another file of the package; section 6: it copies the source to the
    destination while encrypting and returns the bytes written. *)
Definition copyEncrypt (encKey : list byte) (src : list byte)
    (dst : list byte -> M unit) : M Z :=
  dst (encrypt encKey src) ;;;
  ret (Z.of_nat (length (encrypt encKey src))).

(** ** Ranging over the registry *)

(** The order of a [range] over a map: element [sel_k mod remaining] is
    taken at step [k].  Every order is reached by some selector. *)
Fixpoint pick_order {A} (fuel : nat) (sel : list nat) (l : list A) : list A :=
  match fuel with
  | O => []
  | S fuel' =>
      let i := (hd O sel mod length l)%nat in
      match l !! i with
      | Some x => x :: pick_order fuel' (tl sel) (delete i l)
      | None => []
      end
  end.

(** The order in which the next [range] visits the registry. *)
Definition range_order (w : World) : list (string * Peer) :=
  let l := map_to_list (peers w) in
  pick_order (length l) (hd [] (rangeOracle w)) l.

(** [for _, peer := range s.peers]: no lock is taken. *)
Definition range_peers : M (list (string * Peer)) :=
  fun w =>
    (emit_sync PeersRange (set_rangeOracle (tl (rangeOracle w)) w),
     Ok (range_order w)).

(** [peer, ok := s.peers[from]]: no lock is taken. *)
Definition lookup_peer (from : string) : M (option Peer) :=
  fun w => (emit_sync (PeersLookup from) w, Ok (peers w !! from)).

(** ** The methods of [FileServer] *)

Fixpoint broadcast_peers (buf : list byte) (ps : list (string * Peer)) : M unit :=
  match ps with
  | [] => ret tt
  | (_, peer) :: rest =>
      discard (peer_Send peer [IncomingMessage]) ;;;
      peer_Send peer buf ;;;
      broadcast_peers buf rest
  end.

Definition broadcast (msg : Message) : M unit :=
  buf <- lift (gob_encode msg) ;;
  ps <- range_peers ;;
  broadcast_peers buf ps.

Fixpoint Get_peers (key : string) (ps : list (string * Peer)) : M unit :=
  match ps with
  | [] => ret tt
  | (_, peer) :: rest =>
      fileSize <- recover 0 (binary_Read peer) ;;
      encKey <- ask EncKey ;;
      n <- store_WriteDecrypt encKey key (peer_Read peer (Z.to_nat fileSize)) ;;
      Printf (ReceivedOverNetwork n (RemoteAddr peer)) ;;;
      peer_CloseStream peer ;;;
      Get_peers key rest
  end.

Definition Get (key : string) : M (list byte) :=
  has <- store_Has key ;;
  if has then
    Printf (ServingLocal key) ;;;
    x <- store_Read key ;;
    ret (snd x)
  else
    Printf (FetchingFromNetwork key) ;;;
    broadcast (mkMessage (Some (MessageGetFile key))) ;;;
    Sleep 500 ;;;
    ps <- range_peers ;;
    Get_peers key ps ;;;
    x <- store_Read key ;;
    ret (snd x).

(** [fileBuffer] receives through the tee every byte [store.Write] reads
    from [r]; a write that succeeds has read all of [r]. *)
Definition Store (key : string) (r : list byte) : M unit :=
  size <- store_Write key (ret r) ;;
  let fileBuffer := r in
  broadcast (mkMessage (Some (MessageStoreFile key (wrap64 (size + 16))))) ;;;
  Sleep 5 ;;;
  ps <- range_peers ;;
  let mw := multi_Write (map snd ps) in
  discard (mw [IncomingStream]) ;;;
  encKey <- ask EncKey ;;
  n <- copyEncrypt encKey fileBuffer mw ;;
  Printf (ReceivedAndWritten n).

Definition Stop : M unit := act (set_quitCh true).

(** The unlock is deferred to the return. *)
Definition OnPeer (p : Peer) : M unit :=
  act (emit_sync Lock) ;;;
  act (fun w => emit_sync (PeersWrite (RemoteAddr p))
                  (set_peers <[RemoteAddr p := p]> w)) ;;;
  Printf (Connected (RemoteAddr p)) ;;;
  act (emit_sync Unlock).

(** The reader the store hands out is an open file, hence an
    [io.ReadCloser]: the line is printed, and the deferred [rc.Close()]
    leaves the world as it is. *)
Definition handleMessageGetFile (from : string) (Key : string) : M unit :=
  has <- store_Has Key ;;
  if negb has then fail (ErrNeedToServe Key)
  else
    Printf (ServingOverNetwork Key) ;;;
    x <- store_Read Key ;;
    let fileSize := fst x in
    let r := snd x in
    Printf ClosingReadCloser ;;;
    o <- lookup_peer from ;;
    match o with
    | None => fail (ErrPeerNotInMap from)
    | Some peer =>
        discard (peer_Send peer [IncomingStream]) ;;;
        discard (binary_Write peer fileSize) ;;;
        n <- io_Copy peer r ;;
        Printf (WrittenOverNetwork n from)
    end.

Definition handleMessageStoreFile (from : string) (Key : string) (Size : Z) : M unit :=
  o <- lookup_peer from ;;
  match o with
  | None => fail (ErrPeerNotFound from)
  | Some peer =>
      n <- store_Write Key (peer_Read peer (Z.to_nat Size)) ;;
      Printf (WrittenToDisk n) ;;;
      peer_CloseStream peer
  end.

Definition handleMessage (from : string) (msg : Message) : M unit :=
  match Payload msg with
  | Some (MessageStoreFile Key Size) => handleMessageStoreFile from Key Size
  | Some (MessageGetFile Key) => handleMessageGetFile from Key
  | None => ret tt
  end.

(** What a broadcast of [buf] and a fan-out of [ct] put on the wire when
    every write succeeds, the peers being visited in the order [ps]. *)
Definition control_writes (buf : list byte) (ps : list (string * Peer)) : list NetEv :=
  flat_map (fun ap => [Sent (pid (snd ap)) [IncomingMessage];
                       Sent (pid (snd ap)) buf]) ps.

Definition stream_writes (ct : list byte) (ps : list (string * Peer)) : list NetEv :=
  map (fun ap => Sent (pid (snd ap)) [IncomingStream]) ps
  ++ map (fun ap => Sent (pid (snd ap)) ct) ps.





(** ** The dispatch loop *)

(** [p2p.RPC]: the sender's address and the bytes of one control message. *)
Record RPC : Type := mkRPC { From : string; rpcPayload : list byte }.

(** The case a [select] of the loop takes: a unit delivered by
    [s.Transport.Consume()], or the receive on [s.quitCh]. *)
Inductive selected : Type :=
  | Consume (rpc : RPC)
  | QuitCh.

(** [var msg Message] followed by the decoding: an error is logged, and
    [msg] is what the decoder has made of it. *)
Definition decode_Message (b : list byte) : M Message :=
  fun w =>
    match gob_decode b with
    | (m, None) => (w, Ok m)
    | (m, Some e) => (emit_line (DecodingError e) w, Ok m)
    end.

(** One turn of the [Consume] case.  There is no [continue] after a
    decoding error: [handleMessage] runs on whatever [msg] holds. *)
Definition loop_body (rpc : RPC) : M unit :=
  msg <- decode_Message (rpcPayload rpc) ;;
  fun w =>
    match handleMessage (From rpc) msg w with
    | (w', Ok _) => (w', Ok tt)
    | (w', Err e) => (emit_line (HandleMessageError e) w', Ok tt)
    end.

(** The deferred function of [loop]. *)
Definition loop_deferred : M unit :=
  act (fun w => set_transportClosed true (emit_line Stopped w)).

(** [loop] along the cases its [select] takes.  The result tells whether
    [loop] returned: it is [false] when the loop is left waiting in the
    [select] (no more units, or a receive on a channel nobody closed). *)
Fixpoint loop (sel : list selected) : M bool :=
  match sel with
  | [] => ret false
  | Consume rpc :: rest => loop_body rpc ;;; loop rest
  | QuitCh :: _ =>
      closed <- ask quitCh ;;
      if closed then loop_deferred ;;; ret true else ret false
  end.

(** ** The calls a user of the node, or its transport, can make *)

Inductive Call : Type :=
  | CallStore (key : string) (r : list byte)
  | CallGet (key : string)
  | CallOnPeer (p : Peer)
  | CallStop
  | CallLoop (sel : list selected).

Definition call (c : Call) (w : World) : World :=
  match c with
  | CallStore key r => fst (Store key r w)
  | CallGet key => fst (Get key w)
  | CallOnPeer p => fst (OnPeer p w)
  | CallStop => fst (Stop w)
  | CallLoop sel => fst (loop sel w)
  end.

Definition calls (cs : list Call) (w : World) : World :=
  foldl (fun w c => call c w) w cs.

Definition is_OnPeer (c : Call) : bool :=
  match c with CallOnPeer _ => true | _ => false end.

End Server.

(** [NewFileServer]: an empty registry and an open quit channel.  The
    blobs already on disk and the connections of the environment are
    given. *)
Definition NewFileServer (encKey : list byte) (disk : gmap string (list byte))
    (cs : gmap nat Conn) (oracle : list (list nat)) : World :=
  mkWorld encKey (mkStore disk false) false ∅ cs oracle false [] [] [].

(** ** Reading the traces *)

(** The events a call added to the wire. *)
Definition wire_since (w w' : World) : list NetEv :=
  drop (length (wire w)) (wire w').

Definition sync_since (w w' : World) : list SyncEv :=
  drop (length (sync w)) (sync w').

(** The bytes written to connection [p], in order. *)
Fixpoint outbox (p : nat) (evs : list NetEv) : list byte :=
  match evs with
  | [] => []
  | Sent q b :: rest => if (q =? p)%nat then b ++ outbox p rest else outbox p rest
  | _ :: rest => outbox p rest
  end.

Definition is_SendFailed (e : NetEv) : bool :=
  match e with SendFailed _ _ => true | _ => false end.

(** The frame of section 4.2: the tag, an 8-byte little-endian signed
    length, then exactly that many bytes. *)
Definition framed (tag : byte) (bs : list byte) : bool :=
  match bs with
  | [] => false
  | t :: rest =>
      Byte.eqb t tag
      && (8 <=? length rest)%nat
      && (getInt64 (take 8 rest) =? Z.of_nat (length (drop 8 rest)))
  end.


(** The world after one turn of the fetch loop of [Get] that stored the
    plaintext [pt] read from connection [c] of peer [p]. *)
Definition after_fetch (key : string) (p : Peer) (c : Conn) (pt : list byte)
    (w : World) : World :=
  emit_net (StreamClosed (pid p))
    (emit_line (ReceivedOverNetwork (Z.of_nat (length pt)) (RemoteAddr p))
       (set_store (put key pt)
          (emit_net (Received (pid p) (answer_body c))
             (set_conns <[pid p := answer_rest c]>
                (emit_net (Received (pid p) (take 8 (inbox c)))
                   (set_conns <[pid p := mkConn (drop 8 (inbox c)) (credit c)]>
                      w)))))).

(** Every access to the registry happens between [Lock] and [Unlock];
    [held] tells whether the lock is held at the start. *)
Fixpoint guarded (held : bool) (tr : list SyncEv) : bool :=
  match tr with
  | [] => true
  | Lock :: rest => guarded true rest
  | Unlock :: rest => guarded false rest
  | _ :: rest => held && guarded held rest
  end.

(** The part of the world that only [OnPeer], [Stop] and the return of
    [loop] change: the registry, the quit channel and the transport. *)
Definition control (w : World) : gmap string Peer * bool * bool :=
  (peers w, quitCh w, transportClosed w).

(** [m] leaves the observation [f] of the world as it is, whatever it
    returns. *)
Definition keeps {A B} (f : World -> A) (m : M B) : Prop :=
  forall w, f (fst (m w)) = f w.

(** An observation that traffic on the connections and printing do not
    change. *)
Definition net_blind {A} (f : World -> A) : Prop :=
  (forall g w, f (set_conns g w) = f w)
  /\ (forall e w, f (emit_net e w) = f w)
  /\ (forall l w, f (emit_line l w) = f w).

(** What neither traffic nor printing changes, taken together. *)
Definition static (w : World)
  : list byte * BlobStore * gmap string Peer * list (list nat) * list SyncEv :=
  (EncKey w, store w, peers w, rangeOracle w, sync w).

(** A connection that never breaks. *)
Definition healthy (w : World) (p : Peer) : Prop :=
  exists c, conns w !! pid p = Some c /\ credit c = None.

Definition all_healthy (w : World) : Prop :=
  forall a p, peers w !! a = Some p -> healthy w p.

Definition healthyb (w : World) (p : Peer) : bool :=
  match conns w !! pid p with
  | Some c => match credit c with None => true | Some _ => false end
  | None => false
  end.

Definition all_healthyb (w : World) : bool :=
  forallb (fun ap => healthyb w (snd ap)) (map_to_list (peers w)).

(** A connection that refuses every write from now on. *)
Definition broken (w : World) (n : nat) : Prop :=
  credit (default dead_conn (conns w !! n)) = Some O.

(** ** Further observations of the world *)

Definition is_write (e : NetEv) : bool :=
  match e with Sent _ _ | SendFailed _ _ => true | _ => false end.

Definition is_Received (e : NetEv) : bool :=
  match e with Received _ _ => true | _ => false end.

(** What was read off the connections so far, what was written or
    attempted on them, and everything else the wire trace holds (reads,
    stream-consumed signals, pauses). *)
Definition reads (w : World) : list NetEv := List.filter is_Received (wire w).

Definition writes (w : World) : list NetEv := List.filter is_write (wire w).

Definition not_writes (w : World) : list NetEv :=
  List.filter (fun e => negb (is_write e)) (wire w).

(** What waits on connection [n], and the writes it still accepts. *)
Definition inbox_of (n : nat) (w : World) : list byte :=
  inbox (default dead_conn (conns w !! n)).

Definition credit_of (n : nat) (w : World) : option nat :=
  credit (default dead_conn (conns w !! n)).

(** The blob under one key, with the state of the disk. *)
Definition blob_at (key : string) (w : World) : option (list byte) * bool :=
  (blobs (store w) !! key, diskFault (store w)).

(** An observation that writes on connections, printed lines and
    registry accesses do not change. *)
Definition write_blind {A} (f : World -> A) : Prop :=
  (forall p b, keeps f (peer_Write p b))
  /\ (forall l w, f (emit_line l w) = f w)
  /\ (forall e w, f (emit_sync e w) = f w)
  /\ (forall o w, f (set_rangeOracle o w) = f w).

Definition is_Stop (c : Call) : bool :=
  match c with CallStop => true | _ => false end.

(** An observation that looking into the registry does not change. *)
Definition access_blind {A} (f : World -> A) : Prop :=
  (forall e w, f (emit_sync e w) = f w)
  /\ (forall o w, f (set_rangeOracle o w) = f w).




(** The units of a list handled one after the other. *)
Definition run_units {gob : Gob} {cipher : CipherStream} {tags : Tags}
    (units : list RPC) (w : World) : World :=
  foldl (fun w rpc => fst (loop_body rpc w)) w units.

(** ** Small instances of the collaborators, for closed examples *)

Definition byte_xor (a b : byte) : byte :=
  byte_of_Z (Z.lxor (Z_of_byte a) (Z_of_byte b)).

(** A self-delimiting codec in the manner of gob: a variant tag, the
    key with its length, for an announcement the size, and a zero byte
    that ends the message. *)
Definition demo_encode (m : Message) : result (list byte) :=
  match Payload m with
  | None => Ok [Byte.x00]
  | Some (MessageStoreFile k sz) =>
      Ok (Byte.x01 :: byte_of_Z (Z.of_nat (String.length k))
            :: String.list_byte_of_string k ++ putInt64 sz ++ [Byte.x00])
  | Some (MessageGetFile k) =>
      Ok (Byte.x02 :: byte_of_Z (Z.of_nat (String.length k))
            :: String.list_byte_of_string k ++ [Byte.x00])
  end.

(** The end of a message: anything but the single zero byte is an
    error, found once the payload [m] is already in place. *)
Definition demo_end (m : Message) (bs : list byte) : Message * option error :=
  match bs with
  | [Byte.x00] => (m, None)
  | _ => (m, Some ErrGob)
  end.

(** A payload that is cut short leaves the message as it was. *)
Definition demo_decode (bs : list byte) : Message * option error :=
  match bs with
  | [Byte.x00] => (mkMessage None, None)
  | Byte.x01 :: n :: rest =>
      let k := Z.to_nat (Z_of_byte n) in
      if (length rest <? k + 8)%nat then (mkMessage None, Some ErrGob)
      else
        demo_end
          (mkMessage (Some (MessageStoreFile
             (String.string_of_list_byte (take k rest))
             (getInt64 (take 8 (drop k rest))))))
          (drop (k + 8) rest)
  | Byte.x02 :: n :: rest =>
      let k := Z.to_nat (Z_of_byte n) in
      if (length rest <? k)%nat then (mkMessage None, Some ErrGob)
      else
        demo_end
          (mkMessage (Some (MessageGetFile
             (String.string_of_list_byte (take k rest)))))
          (drop k rest)
  | _ => (mkMessage None, Some ErrGob)
  end.

Definition demo_gob : Gob :=
  {| gob_encode := demo_encode; gob_decode := demo_decode |}.

(** A stream cipher with a 16-byte prefix in the place of the
    initialisation vector, and the first key byte as key stream. *)
Definition demo_encrypt (k p : list byte) : list byte :=
  replicate 16 Byte.x00 ++ map (byte_xor (hd Byte.xff k)) p.

Definition demo_decrypt (k c : list byte) : result (list byte) :=
  if (length c <? 16)%nat then Err ErrCipher
  else Ok (map (byte_xor (hd Byte.xff k)) (drop 16 c)).

Definition demo_cipher : CipherStream :=
  {| encrypt := demo_encrypt; decrypt := demo_decrypt |}.

Definition demo_tags : Tags :=
  {| IncomingMessage := Byte.x01; IncomingStream := Byte.x02 |}.

(** ** Example nodes *)

Definition demo_key : list byte := [Byte.x2a].

Definition key_x : string := "x".

Definition demo_data : list byte := [Byte.x68; Byte.x69].

Definition demo_ct : list byte := demo_encrypt demo_key demo_data.

Definition demo_announce : list byte :=
  [Byte.x01; Byte.x01; Byte.x78] ++ putInt64 18 ++ [Byte.x00].

(** The announcement with its last byte damaged. *)
Definition damaged_announce : list byte :=
  [Byte.x01; Byte.x01; Byte.x78] ++ putInt64 18 ++ [Byte.x05].

(** The announcement cut short. *)
Definition truncated_announce : list byte :=
  [Byte.x01; Byte.x01; Byte.x78; Byte.x12].

Definition demo_request : list byte :=
  [Byte.x02; Byte.x01; Byte.x78; Byte.x00].

Definition peerA : Peer := mkPeer 0 "A:3000".
Definition peerB : Peer := mkPeer 0 "B:4000".
Definition peerC : Peer := mkPeer 1 "C:5000".

Definition sound (inb : list byte) : Conn := mkConn inb None.

(** Node A, which knows B only. *)
Definition nodeA1 : World :=
  fst (OnPeer peerB (NewFileServer demo_key ∅ {[0%nat := sound []]} [])).

(** Node A, which knows B and C; its second [range] starts with the
    entry its first one ends with. *)
Definition nodeA : World :=
  fst (OnPeer peerC (fst (OnPeer peerB
    (NewFileServer demo_key ∅ (<[0%nat := sound []]> {[1%nat := sound []]})
       [[]; [1%nat]])))).

(** Node A again, the connection to C breaking at its third write. *)
Definition nodeA_breaking : World :=
  fst (OnPeer peerC (fst (OnPeer peerB
    (NewFileServer demo_key ∅
       (<[0%nat := sound []]> {[1%nat := mkConn [] (Some 2%nat)]}) [])))).

(** Node A with the connection to C broken from the start. *)
Definition nodeA_broken : World :=
  fst (OnPeer peerC (fst (OnPeer peerB
    (NewFileServer demo_key ∅
       (<[0%nat := sound []]> {[1%nat := mkConn [] (Some 0%nat)]}) [])))).

(** A node that knows nobody, and the same on a disk that cannot be
    written. *)
Definition node0 : World := NewFileServer demo_key ∅ ∅ [].

Definition node0_faulty : World :=
  set_store (fun st => mkStore (blobs st) true) node0.

(** Node B, which knows A; [inb] is what waits on the connection. *)
Definition nodeB (inb : list byte) : World :=
  fst (OnPeer peerA (NewFileServer demo_key ∅ {[0%nat := sound inb]} [])).

(** Node A with the connection to C broken, its [range] reaching B
    before C. *)
Definition nodeA_cut : World :=
  fst (OnPeer peerC (fst (OnPeer peerB
    (NewFileServer demo_key ∅
       (<[0%nat := sound []]> {[1%nat := mkConn [] (Some 0%nat)]})
       [[1%nat]])))).


(** Node B knowing A and C, the ciphertext A pushed waiting on its
    connection to A. *)
Definition nodeB_full : World :=
  fst (OnPeer peerC (fst (OnPeer peerA
    (NewFileServer demo_key ∅
       (<[0%nat := sound demo_ct]> {[1%nat := sound []]}) [])))).

(** Node C, which knows B only and holds nothing; the answer of B
    waits on its connection. *)
Definition nodeC : World :=
  fst (OnPeer peerB
    (NewFileServer demo_key ∅ {[0%nat := sound (putInt64 18 ++ demo_ct)]} [])).

Definition key_y : string := "y".


(** Node B holding a blob under ["x"]. *)
Definition nodeB_with_x : World :=
  fst (OnPeer peerA
    (NewFileServer demo_key {[key_x := demo_ct]} {[0%nat := sound []]} [])).

(** * Properties *)

(** ** Little-endian integers *)

Lemma Z_of_byte_of_Z (z : Z) : Z_of_byte (byte_of_Z z) = z mod 256.
Proof.
  unfold Z_of_byte, byte_of_Z.
  assert (Hr : 0 <= z mod 256 < 256) by (apply Z.mod_pos_bound; lia).
  destruct (Byte.of_N (Z.to_N (z mod 256))) as [b|] eqn:E.
  - apply Byte.to_of_N in E. simpl. rewrite E. lia.
  - apply Byte.of_N_None_iff in E. lia.
Qed.

Lemma length_le_bytes (n : nat) (z : Z) : length (le_bytes n z) = n.
Proof. revert z. induction n as [|n IH]; intros z; simpl; [done|]. by rewrite IH. Qed.

Lemma le_value_le_bytes (n : nat) (z : Z) :
  le_value (le_bytes n z) = z mod 256 ^ Z.of_nat n.
Proof.
  revert z. induction n as [|n IH]; intros z.
  - simpl. by rewrite Z.mod_1_r.
  - cbn [le_bytes le_value]. rewrite IH, Z_of_byte_of_Z.
    rewrite Nat2Z.inj_succ, Z.pow_succ_r by lia.
    rewrite (Z.rem_mul_r z 256 (256 ^ Z.of_nat n)) by lia. lia.
Qed.

Lemma wrap64_id (z : Z) : - 2 ^ 63 <= z < 2 ^ 63 -> wrap64 z = z.
Proof. intros H. unfold wrap64. rewrite Z.mod_small; lia. Qed.

Lemma getInt64_putInt64 (z : Z) :
  - 2 ^ 63 <= z < 2 ^ 63 -> getInt64 (putInt64 z) = z.
Proof.
  intros H. unfold getInt64, putInt64. rewrite le_value_le_bytes.
  change (256 ^ Z.of_nat 8) with (2 ^ 64). unfold wrap64.
  rewrite Z.add_mod_idemp_l by lia.
  rewrite Z.mod_small; lia.
Qed.

(** ** The monad *)

Lemma bind_Ok {A B} (m : M A) (k : A -> M B) w w' a :
  m w = (w', Ok a) -> bind m k w = k a w'.
Proof. intros H. unfold bind. by rewrite H. Qed.

Lemma bind_Err {A B} (m : M A) (k : A -> M B) w w' e :
  m w = (w', Err e) -> bind m k w = (w', Err e).
Proof. intros H. unfold bind. by rewrite H. Qed.

Lemma discard_eq {A} (m : M A) w w' r :
  m w = (w', r) -> discard m w = (w', Ok tt).
Proof. intros H. unfold discard. by rewrite H. Qed.

Lemma bind_inv_Ok {A B} (m : M A) (k : A -> M B) w w' b :
  bind m k w = (w', Ok b) ->
  exists w1 a, m w = (w1, Ok a) /\ k a w1 = (w', Ok b).
Proof.
  unfold bind. destruct (m w) as [w1 [a|e]]; [|done]. intros H. by exists w1, a.
Qed.

Lemma keeps_ret {A B} (f : World -> A) (b : B) : keeps f (ret b).
Proof. by intros w. Qed.

Lemma keeps_fail {A B} (f : World -> A) e : keeps f (@fail B e).
Proof. by intros w. Qed.

Lemma keeps_lift {A B} (f : World -> A) (r : result B) : keeps f (lift r).
Proof. by intros w. Qed.

Lemma keeps_ask {A B} (f : World -> A) (g : World -> B) : keeps f (ask g).
Proof. by intros w. Qed.

Lemma keeps_act {A} (f : World -> A) (g : World -> World) :
  (forall w, f (g w) = f w) -> keeps f (act g).
Proof. intros H w. apply H. Qed.

Lemma keeps_bind {A B C} (f : World -> A) (m : M B) (k : B -> M C) :
  keeps f m -> (forall b, keeps f (k b)) -> keeps f (bind m k).
Proof.
  intros Hm Hk w. unfold bind. specialize (Hm w).
  destruct (m w) as [w' [b|e]]; simpl in *; [|done].
  by rewrite Hk.
Qed.

Lemma keeps_discard {A B} (f : World -> A) (m : M B) :
  keeps f m -> keeps f (discard m).
Proof. intros Hm w. apply Hm. Qed.

Lemma keeps_recover {A B} (f : World -> A) (d : B) (m : M B) :
  keeps f m -> keeps f (recover d m).
Proof.
  intros Hm w. unfold recover. specialize (Hm w).
  by destruct (m w) as [w' [b|e]].
Qed.

Lemma keeps_guard_disk {A B} (f : World -> A) (m : M B) :
  keeps f m -> keeps f (when_disk_ok m).
Proof.
  intros Hm w. unfold when_disk_ok.
  destruct (diskFault (store w)); [done|apply Hm].
Qed.

Lemma keeps_eq {A B} (f : World -> A) (m : M B) w w' r :
  keeps f m -> m w = (w', r) -> f w' = f w.
Proof. intros Hk Hm. specialize (Hk w). by rewrite Hm in Hk. Qed.

Create HintDb keeps discriminated.
#[local] Hint Resolve keeps_ret keeps_fail keeps_lift keeps_ask keeps_bind
  keeps_discard keeps_recover keeps_guard_disk : keeps.

(** Splits a [keeps] goal along the shape of the program. *)
Ltac keeps_step :=
  match goal with
  | |- keeps _ (ret _) => apply keeps_ret
  | |- keeps _ (fail _) => apply keeps_fail
  | |- keeps _ (lift _) => apply keeps_lift
  | |- keeps _ (ask _) => apply keeps_ask
  | |- keeps _ (bind _ _) => apply keeps_bind
  | |- keeps _ (discard _) => apply keeps_discard
  | |- keeps _ (recover _ _) => apply keeps_recover
  | |- keeps _ (when_disk_ok _) => apply keeps_guard_disk
  | |- keeps _ (act _) => apply keeps_act; intros; reflexivity
  | |- keeps _ (if ?b then _ else _) => destruct b
  | |- keeps _ (match ?o with Some _ => _ | None => _ end) => destruct o
  | |- keeps _ (match ?o with [] => _ | _ :: _ => _ end) => destruct o
  | |- forall _, _ => intros ?
  end.

Ltac keeps_auto := repeat keeps_step; eauto with keeps.

Lemma net_blind_control : net_blind control.
Proof. by repeat split. Qed.

Lemma net_blind_sync : net_blind sync.
Proof. by repeat split. Qed.

Lemma net_blind_store : net_blind store.
Proof. by repeat split. Qed.

Lemma net_blind_rangeOracle : net_blind rangeOracle.
Proof. by repeat split. Qed.

#[local] Hint Resolve net_blind_control net_blind_sync net_blind_store
  net_blind_rangeOracle : keeps.

Section NetBlind.
Context {A : Type} (f : World -> A) (Hf : net_blind f).

Lemma keeps_peer_Write p b : keeps f (peer_Write p b).
Proof.
  destruct Hf as (Hc & Hn & _). intros w. unfold peer_Write.
  destruct (credit (conn_of w p)) as [[|n]|]; simpl; by rewrite ?Hn, ?Hc.
Qed.

Lemma keeps_peer_Read p n : keeps f (peer_Read p n).
Proof.
  destruct Hf as (Hc & Hn & _). intros w. unfold peer_Read; simpl.
  by rewrite Hn, Hc.
Qed.

Lemma keeps_Printf l : keeps f (Printf l).
Proof. destruct Hf as (_ & _ & Hl). intros w. apply Hl. Qed.

Lemma keeps_Sleep ms : keeps f (Sleep ms).
Proof. destruct Hf as (_ & Hn & _). intros w. apply Hn. Qed.

Lemma keeps_peer_CloseStream p : keeps f (peer_CloseStream p).
Proof. destruct Hf as (_ & Hn & _). intros w. apply Hn. Qed.

Lemma keeps_multi_Write ws b : keeps f (multi_Write ws b).
Proof.
  pose proof keeps_peer_Write.
  induction ws as [|p ws IH]; simpl; keeps_auto.
Qed.

Lemma keeps_io_Copy p r : keeps f (io_Copy p r).
Proof. pose proof keeps_peer_Write. unfold io_Copy. keeps_auto. Qed.

End NetBlind.

#[local] Hint Resolve keeps_peer_Write keeps_peer_Read keeps_Printf keeps_Sleep
  keeps_peer_CloseStream keeps_multi_Write keeps_io_Copy : keeps.

Lemma keeps_store_Write key r :
  keeps control r -> keeps control (store_Write key r).
Proof. intros Hr. unfold store_Write. keeps_auto. Qed.

Lemma keeps_store_Read {A} (f : World -> A) key : keeps f (store_Read key).
Proof. intros w. unfold store_Read. by destruct (blobs (store w) !! key). Qed.

Lemma keeps_range_peers : keeps control range_peers.
Proof. by intros w. Qed.

Lemma keeps_lookup_peer from : keeps control (lookup_peer from).
Proof. by intros w. Qed.

#[local] Hint Resolve keeps_store_Write keeps_store_Read
  keeps_range_peers keeps_lookup_peer : keeps.

Section ServerFrame.
Context {gob : Gob} {cipher : CipherStream} {tags : Tags}.

Lemma keeps_store_WriteDecrypt k key r :
  keeps control r -> keeps control (store_WriteDecrypt k key r).
Proof. intros Hr. unfold store_WriteDecrypt. keeps_auto. Qed.

Lemma keeps_broadcast_peers {A} (f : World -> A) buf ps :
  net_blind f -> keeps f (broadcast_peers buf ps).
Proof.
  intros Hf.
  induction ps as [|[a p] ps IH]; simpl; unfold peer_Send; keeps_auto.
Qed.

Lemma keeps_broadcast msg : keeps control (broadcast msg).
Proof.
  unfold broadcast. pose proof (keeps_broadcast_peers control).
  keeps_auto.
Qed.

Lemma keeps_Get_peers key ps : keeps control (Get_peers key ps).
Proof.
  pose proof keeps_store_WriteDecrypt.
  induction ps as [|[a p] ps IH]; simpl; [keeps_auto|].
  unfold binary_Read. keeps_auto.
Qed.

Lemma keeps_Get key : keeps control (Get key).
Proof.
  pose proof keeps_broadcast. pose proof keeps_Get_peers.
  unfold Get, store_Has. keeps_auto.
Qed.

Lemma keeps_Store key r : keeps control (Store key r).
Proof.
  pose proof keeps_broadcast.
  unfold Store, copyEncrypt. keeps_auto.
Qed.

Lemma keeps_handleMessage from msg : keeps control (handleMessage from msg).
Proof.
  unfold handleMessage, handleMessageStoreFile, handleMessageGetFile,
    store_Has, peer_Send, binary_Write.
  destruct (Payload msg) as [[k sz|k]|]; keeps_auto.
Qed.

Lemma keeps_loop_body rpc : keeps control (loop_body rpc).
Proof.
  unfold loop_body. apply keeps_bind.
  - intros w. unfold decode_Message. by destruct (gob_decode _) as [m [e|]].
  - intros msg w. pose proof (keeps_handleMessage (From rpc) msg w) as H.
    by destruct (handleMessage (From rpc) msg w) as [w' [[]|e]].
Qed.

End ServerFrame.

(** ** The dispatch loop and the registry *)

Section Dispatch.
Context {gob : Gob} {cipher : CipherStream} {tags : Tags}.

Lemma loop_body_Ok rpc w : snd (loop_body rpc w) = Ok tt.
Proof.
  unfold loop_body, bind, decode_Message.
  destruct (gob_decode (rpcPayload rpc)) as [m [e|]];
    by destruct (handleMessage _ _ _) as [w' [[]|e']].
Qed.

Lemma loop_Consume rpc rest w :
  loop (Consume rpc :: rest) w = loop rest (fst (loop_body rpc w)).
Proof.
  cbn [loop]. unfold bind at 1. pose proof (loop_body_Ok rpc w) as H.
  destruct (loop_body rpc w) as [w' r]; simpl in *. by subst r.
Qed.

(** What [loop] returns, and what it leaves of the control state. *)
Lemma loop_outcome sel w :
  exists b,
    snd (loop sel w) = Ok b
    /\ (b = true <-> quitCh w = true /\ QuitCh ∈ sel)
    /\ peers (fst (loop sel w)) = peers w
    /\ quitCh (fst (loop sel w)) = quitCh w
    /\ transportClosed (fst (loop sel w)) = b || transportClosed w.
Proof.
  revert w. induction sel as [|[rpc|] rest IH]; intros w.
  - exists false. simpl. split_and!; try done.
    split; [done|]. intros [_ H]. by apply elem_of_nil in H.
  - rewrite loop_Consume.
    pose proof (keeps_loop_body rpc w) as Hk. unfold control in Hk.
    injection Hk as Hp Hq Ht.
    destruct (IH (fst (loop_body rpc w))) as (b & Hb & Hiff & Hp' & Hq' & Ht').
    exists b. rewrite Hb, Hp', Hq', Ht', Hp, Ht.
    rewrite Hq in Hiff |- *. split_and!; try done.
    rewrite Hiff. split; intros [H1 H2]; (split; [done|]).
    + apply elem_of_cons. by right.
    + apply elem_of_cons in H2 as [H2|H2]; [discriminate|done].
  - cbn [loop]. unfold bind, ask, loop_deferred, act, ret.
    destruct (quitCh w) eqn:Hq; simpl.
    + exists true. rewrite Hq. split_and!; try done.
      split; [|done]. intros _. split; [done|]. apply elem_of_cons. by left.
    + exists false. rewrite Hq. split_and!; try done.
      split; [done|]. by intros [? _].
Qed.

(** X1: what the loop does with a unit, in general: a decoding error is
    logged and the loop still hands to [handleMessage] the message as the
    decoder left it, so that no handler runs exactly when the payload was
    left nil; a handler error is logged; after any unit the loop goes on
    with the next one; and the loop returns exactly when the receive on
    the closed quit channel is selected, the transport being closed then
    and only then. *)
Theorem loop_logs_errors_and_stops_on_quit :
  (forall rpc w m e,
      gob_decode (rpcPayload rpc) = (m, Some e) ->
      loop_body rpc w
      = (match handleMessage (From rpc) m (emit_line (DecodingError e) w) with
         | (w1, Ok _) => w1
         | (w1, Err e') => emit_line (HandleMessageError e') w1
         end, Ok tt))
  /\ (forall rpc w m e,
      gob_decode (rpcPayload rpc) = (m, Some e) ->
      Payload m = None ->
      loop_body rpc w = (emit_line (DecodingError e) w, Ok tt))
  /\ (forall rpc w msg w1 e,
      gob_decode (rpcPayload rpc) = (msg, None) ->
      handleMessage (From rpc) msg w = (w1, Err e) ->
      loop_body rpc w = (emit_line (HandleMessageError e) w1, Ok tt))
  /\ (forall rpc rest w,
      loop (Consume rpc :: rest) w = loop rest (fst (loop_body rpc w)))
  /\ (forall sel w,
      exists b,
        snd (loop sel w) = Ok b
        /\ (b = true <-> quitCh w = true /\ QuitCh ∈ sel)
        /\ transportClosed (fst (loop sel w)) = b || transportClosed w).
Proof.
  split_and!.
  - intros rpc w m e He. unfold loop_body, bind, decode_Message. rewrite He.
    by destruct (handleMessage _ _ _) as [w1 [[]|e']].
  - intros rpc w m e He Hm. unfold loop_body, bind, decode_Message.
    rewrite He. unfold handleMessage. by rewrite Hm.
  - intros rpc w msg w1 e Hm Hh. unfold loop_body, bind, decode_Message.
    by rewrite Hm, Hh.
  - apply loop_Consume.
  - intros sel w. destruct (loop_outcome sel w) as (b & H1 & H2 & _ & _ & H3).
    by exists b.
Qed.

(** C10: a request for a key the local store does not hold makes the
    handler return its error at once, the world untouched: nothing is
    written to the requesting peer.  In the loop the only trace of it is
    the logged line. *)
Theorem handleMessageGetFile_absent_key_is_silent w from key :
  blobs (store w) !! key = None ->
  handleMessageGetFile from key w = (w, Err (ErrNeedToServe key))
  /\ (forall rpc,
        From rpc = from ->
        gob_decode (rpcPayload rpc) = (mkMessage (Some (MessageGetFile key)), None) ->
        loop_body rpc w
          = (emit_line (HandleMessageError (ErrNeedToServe key)) w, Ok tt)
        /\ wire (fst (loop_body rpc w)) = wire w
        /\ conns (fst (loop_body rpc w)) = conns w).
Proof.
  intros Hk.
  assert (Hh : handleMessageGetFile from key w = (w, Err (ErrNeedToServe key))).
  { unfold handleMessageGetFile, bind, store_Has, ask. rewrite Hk.
    rewrite bool_decide_eq_false_2; [done|]. by intros [? ?]. }
  split; [done|]. intros rpc Hf Hd.
  assert (Hb : loop_body rpc w
               = (emit_line (HandleMessageError (ErrNeedToServe key)) w, Ok tt)).
  { unfold loop_body, bind, decode_Message. rewrite Hd. simpl.
    unfold handleMessage; simpl. by rewrite Hf, Hh. }
  by rewrite Hb.
Qed.

Lemma call_keeps_control c w :
  is_OnPeer c = false ->
  peers (call c w) = peers w.
Proof.
  intros Hc. destruct c as [key r|key|p| |sel]; simpl; try done.
  - pose proof (keeps_Store key r w) as H. by injection H.
  - pose proof (keeps_Get key w) as H. by injection H.
  - by destruct (loop_outcome sel w) as (b & _ & _ & H & _).
Qed.

Lemma OnPeer_world p w :
  OnPeer p w
  = (emit_sync Unlock
       (emit_line (Connected (RemoteAddr p))
          (emit_sync (PeersWrite (RemoteAddr p))
             (set_peers <[RemoteAddr p := p]> (emit_sync Lock w)))), Ok tt).
Proof. reflexivity. Qed.

Lemma call_grows_registry c w : dom (peers w) ⊆ dom (peers (call c w)).
Proof.
  destruct (is_OnPeer c) eqn:Hc.
  - destruct c; try done. cbn [call]. rewrite OnPeer_world. simpl.
    rewrite dom_insert_L. set_solver.
  - by rewrite call_keeps_control.
Qed.

(** C8: the registry holds at most one entry for an address; a call
    other than [OnPeer] leaves the registry exactly as it was; [OnPeer]
    sets the entry of the peer's address between taking and releasing the
    lock; and no call, hence no sequence of calls, removes an address, so
    that the registry never gets smaller. *)
Theorem registry_changes_only_in_OnPeer_and_never_shrinks :
  (forall w, NoDup (map fst (map_to_list (peers w))))
  /\ (forall c w, is_OnPeer c = false -> peers (call c w) = peers w)
  /\ (forall p w,
        peers (call (CallOnPeer p) w) = <[RemoteAddr p := p]> (peers w)
        /\ sync_since w (call (CallOnPeer p) w)
           = [Lock; PeersWrite (RemoteAddr p); Unlock]
        /\ guarded false (sync_since w (call (CallOnPeer p) w)) = true)
  /\ (forall cs w,
        dom (peers w) ⊆ dom (peers (calls cs w))
        /\ (size (peers w) <= size (peers (calls cs w)))%nat).
Proof.
  split; [|split; [|split]].
  - intros w. apply NoDup_fst_map_to_list.
  - apply call_keeps_control.
  - intros p w. cbn [call]. rewrite OnPeer_world. unfold sync_since. simpl.
    rewrite <- !app_assoc. rewrite drop_app_length. by simpl.
  - assert (Hdom : forall cs w, dom (peers w) ⊆ dom (peers (calls cs w))).
    { intros cs. induction cs as [|c cs IH]; intros w; simpl; [done|].
      etrans; [apply (call_grows_registry c)|apply IH]. }
    intros cs w. split; [apply Hdom|].
    rewrite <- !size_dom. apply subseteq_size, Hdom.
Qed.

End Dispatch.

(** ** Local reads *)

Section LocalGet.
Context {gob : Gob} {cipher : CipherStream} {tags : Tags}.

Lemma range_peers_empty w :
  peers w = ∅ ->
  range_peers w
  = (emit_sync PeersRange (set_rangeOracle (tl (rangeOracle w)) w), Ok []).
Proof.
  intros Hp. unfold range_peers, range_order.
  by rewrite Hp, map_to_list_empty.
Qed.

Lemma Get_local w key bs :
  blobs (store w) !! key = Some bs ->
  Get key w = (emit_line (ServingLocal key) w, Ok bs).
Proof.
  intros Hk. unfold Get, bind, store_Has, ask.
  rewrite bool_decide_eq_true_2 by (by rewrite Hk).
  unfold Printf, act, store_Read; simpl. by rewrite Hk.
Qed.

Lemma Store_no_peers w key data w1 :
  peers w = ∅ ->
  Store key data w = (w1, Ok tt) ->
  blobs (store w1) !! key = Some data /\ wire w1 = wire w ++ [Slept 5].
Proof.
  intros Hp. unfold Store, bind at 1, store_Write, when_disk_ok.
  destruct (diskFault (store w)); [done|].
  unfold bind at 1, ret at 1. unfold bind at 1, act at 1. unfold ret at 1.
  unfold bind at 1, broadcast, bind at 1, lift.
  destruct (gob_encode _) as [buf|e]; [|done].
  unfold bind at 1. rewrite range_peers_empty by done.
  cbn [broadcast_peers]. unfold ret at 1.
  unfold bind at 1, Sleep, act at 1.
  unfold bind at 1. rewrite range_peers_empty by done.
  cbn. intros [= <-]. cbn. split; [|done]. apply lookup_insert_eq.
Qed.

(** C2: when the local store holds the key, [Get] returns the stored
    content and changes nothing but the printed lines: no byte is
    written to or read from a connection and the registry is not even
    consulted.  In particular a [Store] that succeeds with an empty
    registry has done no network I/O, and the [Get] that follows returns
    the data from the local store. *)
Theorem Get_serves_local_blob_without_network :
  (forall w key bs,
      blobs (store w) !! key = Some bs ->
      Get key w = (emit_line (ServingLocal key) w, Ok bs)
      /\ wire (fst (Get key w)) = wire w
      /\ conns (fst (Get key w)) = conns w
      /\ sync (fst (Get key w)) = sync w)
  /\ (forall w key data w1,
      peers w = ∅ ->
      Store key data w = (w1, Ok tt) ->
      wire w1 = wire w ++ [Slept 5]
      /\ Get key w1 = (emit_line (ServingLocal key) w1, Ok data)
      /\ wire (fst (Get key w1)) = wire w1).
Proof.
  split.
  - intros w key bs Hk. by rewrite (Get_local _ _ _ Hk).
  - intros w key data w1 Hp Hs.
    destruct (Store_no_peers _ _ _ _ Hp Hs) as [Hb Hw].
    by rewrite (Get_local _ _ _ Hb).
Qed.

End LocalGet.

(** ** Writes on connections that never break *)

Lemma emit_nets_nil w : emit_nets [] w = w.
Proof. destruct w. unfold emit_nets; simpl. by rewrite app_nil_r. Qed.

Lemma emit_nets_emit_nets es1 es2 w :
  emit_nets es2 (emit_nets es1 w) = emit_nets (es1 ++ es2) w.
Proof. unfold emit_nets; simpl. by rewrite app_assoc. Qed.

Lemma set_conns_insert_id w n c :
  conns w !! n = Some c -> set_conns <[n := c]> w = w.
Proof. intros H. destruct w. unfold set_conns; simpl in *. by rewrite insert_id. Qed.

Lemma healthy_same_conns w w' p :
  conns w' = conns w -> healthy w p -> healthy w' p.
Proof. intros Hc (c & H1 & H2). exists c. by rewrite Hc. Qed.

Lemma peer_Write_healthy w p b :
  healthy w p -> peer_Write p b w = (emit_nets [Sent (pid p) b] w, Ok tt).
Proof.
  intros (c & Hc & Hcr). unfold peer_Write, conn_of. rewrite Hc; simpl.
  rewrite Hcr; simpl.
  replace (mkConn (inbox c) None) with c by (destruct c; simpl in *; by subst).
  by rewrite set_conns_insert_id.
Qed.

Lemma multi_Write_healthy ws b w :
  Forall (healthy w) ws ->
  multi_Write ws b w = (emit_nets (map (fun p => Sent (pid p) b) ws) w, Ok tt).
Proof.
  revert w. induction ws as [|p ws IH]; intros w Hws; simpl.
  - by rewrite emit_nets_nil.
  - apply Forall_cons in Hws as [Hp Hws].
    rewrite (bind_Ok _ _ _ _ _ (peer_Write_healthy _ _ _ Hp)).
    rewrite IH.
    + by rewrite emit_nets_emit_nets.
    + eapply Forall_impl; [done|]. intros q. by apply healthy_same_conns.
Qed.

Lemma pick_order_perm {A} (sel : list nat) (l : list A) :
  pick_order (length l) sel l ≡ₚ l.
Proof.
  remember (length l) as n eqn:Hn. revert sel l Hn.
  induction n as [|n IH]; intros sel l Hn; simpl.
  - by destruct l.
  - destruct (l !! (hd 0%nat sel mod length l)%nat) as [x|] eqn:Hx.
    + etrans; [|symmetry; apply (delete_Permutation l _ x Hx)].
      constructor. apply IH. rewrite length_delete by (by exists x). lia.
    + apply lookup_ge_None in Hx.
      pose proof (Nat.mod_upper_bound (hd 0%nat sel) (length l)). lia.
Qed.

Lemma range_order_perm w : range_order w ≡ₚ map_to_list (peers w).
Proof. apply pick_order_perm. Qed.

Lemma range_order_registered w a p :
  (a, p) ∈ range_order w <-> peers w !! a = Some p.
Proof. by rewrite range_order_perm, elem_of_map_to_list. Qed.

Section HealthyPeers.
Context {gob : Gob} {cipher : CipherStream} {tags : Tags}.

Lemma all_healthy_range w w1 w' :
  all_healthy w -> peers w1 = peers w -> conns w' = conns w ->
  Forall (fun ap => healthy w' (snd ap)) (range_order w1).
Proof.
  intros Hh Hp Hc. apply Forall_forall. intros [a p] Hin.
  apply range_order_registered in Hin. rewrite Hp in Hin.
  eapply healthy_same_conns; [done|]. by eapply Hh.
Qed.

Lemma broadcast_peers_healthy buf ps w :
  Forall (fun ap => healthy w (snd ap)) ps ->
  broadcast_peers buf ps w = (emit_nets (control_writes buf ps) w, Ok tt).
Proof.
  revert w. induction ps as [|[a p] ps IH]; intros w Hps; simpl.
  - by rewrite emit_nets_nil.
  - apply Forall_cons in Hps as [Hp Hps]. simpl in Hp.
    unfold peer_Send.
    rewrite (bind_Ok _ _ _ _ _
               (discard_eq _ _ _ _ (peer_Write_healthy _ _ _ Hp))).
    erewrite bind_Ok.
    2:{ apply peer_Write_healthy. by eapply healthy_same_conns. }
    rewrite IH.
    + by rewrite !emit_nets_emit_nets.
    + eapply Forall_impl; [done|]. intros q. by apply healthy_same_conns.
Qed.

Lemma broadcast_healthy msg buf w :
  gob_encode msg = Ok buf ->
  all_healthy w ->
  broadcast msg w
  = (emit_nets (control_writes buf (range_order w))
       (emit_sync PeersRange (set_rangeOracle (tl (rangeOracle w)) w)), Ok tt).
Proof.
  intros He Hh. unfold broadcast, bind at 1, lift. rewrite He.
  unfold bind, range_peers. apply broadcast_peers_healthy.
  by apply (all_healthy_range w).
Qed.

(** A [Store] on a sound disk with connections that never break. *)
Lemma Store_healthy w key r buf :
  diskFault (store w) = false ->
  gob_encode (mkMessage (Some (MessageStoreFile key
                (wrap64 (Z.of_nat (length r) + 16))))) = Ok buf ->
  all_healthy w ->
  exists w',
    Store key r w = (w', Ok tt)
    /\ store w' = put key r (store w)
    /\ wire w' = wire w
         ++ control_writes buf (range_order w)
         ++ [Slept 5]
         ++ stream_writes (encrypt (EncKey w) r)
              (range_order (set_rangeOracle (tl (rangeOracle w)) w))
    /\ sync w' = sync w ++ [PeersRange; PeersRange]
    /\ conns w' = conns w
    /\ peers w' = peers w.
Proof.
  intros Hd He Hh. unfold Store.
  rewrite (bind_Ok _ _ w (set_store (put key r) w) (Z.of_nat (length r))).
  2:{ unfold store_Write, when_disk_ok. by rewrite Hd. }
  erewrite bind_Ok.
  2:{ apply broadcast_healthy; [done|].
      intros a p Hp. eapply healthy_same_conns; [|by eapply Hh]. done. }
  erewrite bind_Ok by reflexivity.
  erewrite bind_Ok by reflexivity.
  erewrite bind_Ok.
  2:{ eapply discard_eq. apply multi_Write_healthy.
      apply Forall_fmap. by apply (all_healthy_range w). }
  erewrite bind_Ok by reflexivity.
  unfold copyEncrypt. erewrite bind_Ok.
  2:{ erewrite bind_Ok; [reflexivity|]. apply multi_Write_healthy.
      apply Forall_fmap. by apply (all_healthy_range w). }
  eexists. split; [reflexivity|]. cbn.
  split_and!; try done.
  - unfold stream_writes. rewrite !map_map.
    rewrite <- !app_assoc. done.
  - by rewrite <- app_assoc.
Qed.

End HealthyPeers.

Lemma healthyb_healthy w p : healthyb w p = true -> healthy w p.
Proof.
  unfold healthyb, healthy. destruct (conns w !! pid p) as [c|]; [|done].
  destruct (credit c) eqn:Hc; [done|]. by exists c.
Qed.

Lemma all_healthyb_all_healthy w : all_healthyb w = true -> all_healthy w.
Proof.
  unfold all_healthyb. rewrite forallb_forall. intros H a p Hp.
  apply healthyb_healthy. apply (H (a, p)).
  apply list_elem_of_In. by apply elem_of_map_to_list.
Qed.

Section StoreSpec.
Context {gob : Gob} {cipher : CipherStream} {tags : Tags}.




Lemma broadcast_sync msg buf w :
  gob_encode msg = Ok buf ->
  sync (fst (broadcast msg w)) = sync w ++ [PeersRange].
Proof.
  intros He. unfold broadcast, bind at 1, lift. rewrite He.
  unfold bind, range_peers.
  by rewrite (keeps_broadcast_peers sync _ _ net_blind_sync).
Qed.

(** C9: the registry is ranged over with the lock free.  Whenever
    [broadcast] gets past the encoding, its only registry event is a
    [range] outside any [Lock]/[Unlock] pair; a [Store] that goes through
    does so twice, once in [broadcast] and once for the fan-out. *)
Theorem broadcast_and_Store_range_without_lock :
  (forall w msg buf,
      gob_encode msg = Ok buf ->
      sync_since w (fst (broadcast msg w)) = [PeersRange]
      /\ guarded false (sync_since w (fst (broadcast msg w))) = false)
  /\ (forall w key r buf,
      diskFault (store w) = false ->
      gob_encode (mkMessage (Some (MessageStoreFile key
                    (wrap64 (Z.of_nat (length r) + 16))))) = Ok buf ->
      all_healthy w ->
      sync_since w (fst (Store key r w)) = [PeersRange; PeersRange]
      /\ guarded false (sync_since w (fst (Store key r w))) = false).
Proof.
  split.
  - intros w msg buf He. unfold sync_since.
    rewrite (broadcast_sync _ _ _ He), drop_app_length. done.
  - intros w key r buf Hd He Hh.
    destruct (Store_healthy w key r buf Hd He Hh)
      as (w' & Hs & _ & _ & Hsy & _ & _).
    unfold sync_since. rewrite Hs; simpl. rewrite Hsy, drop_app_length. done.
Qed.

End StoreSpec.

(** ** Content streams *)

Lemma outbox_Sent_same p b rest : outbox p (Sent p b :: rest) = b ++ outbox p rest.
Proof. simpl. by rewrite Nat.eqb_refl. Qed.

Lemma byte_eqb_refl (b : byte) : Byte.eqb b b = true.
Proof. by apply Byte.byte_dec_lb. Qed.

Lemma framed_put tag bs :
  Z.of_nat (length bs) < 2 ^ 63 ->
  framed tag (tag :: putInt64 (Z.of_nat (length bs)) ++ bs) = true.
Proof.
  intros Hn.
  assert (Hl : length (putInt64 (Z.of_nat (length bs))) = 8%nat)
    by apply length_le_bytes.
  unfold framed. rewrite byte_eqb_refl, andb_true_l.
  rewrite (take_app_length' _ bs 8 (eq_sym Hl)).
  rewrite (drop_app_length' _ bs 8 (eq_sym Hl)).
  rewrite getInt64_putInt64 by lia. by rewrite Z.eqb_refl.
Qed.

Section Streams.
Context {gob : Gob} {cipher : CipherStream} {tags : Tags}.

(** The answer to a request, on a connection that never breaks. *)
Lemma handleMessageGetFile_healthy w from key bs peer :
  blobs (store w) !! key = Some bs ->
  peers w !! from = Some peer ->
  healthy w peer ->
  exists w',
    handleMessageGetFile from key w = (w', Ok tt)
    /\ wire w' = wire w
         ++ [Sent (pid peer) [IncomingStream];
             Sent (pid peer) (putInt64 (Z.of_nat (length bs)))]
         ++ match bs with [] => [] | _ => [Sent (pid peer) bs] end.
Proof.
  intros Hk Hp Hh. unfold handleMessageGetFile.
  erewrite bind_Ok.
  2:{ unfold store_Has, ask. by rewrite bool_decide_eq_true_2 by (by rewrite Hk). }
  cbn [negb]. erewrite bind_Ok by reflexivity.
  erewrite bind_Ok.
  2:{ unfold store_Read; simpl. by rewrite Hk. }
  cbn [fst snd]. erewrite bind_Ok by reflexivity.
  erewrite bind_Ok.
  2:{ unfold lookup_peer. cbn [peers emit_line]. by rewrite Hp. }
  unfold peer_Send, binary_Write.
  erewrite bind_Ok.
  2:{ eapply discard_eq. apply peer_Write_healthy.
      by eapply healthy_same_conns. }
  erewrite bind_Ok.
  2:{ eapply discard_eq. apply peer_Write_healthy.
      by eapply healthy_same_conns. }
  destruct bs as [|b bs].
  - eexists. split; [reflexivity|]. simpl. by rewrite <- app_assoc.
  - unfold io_Copy. erewrite bind_Ok.
    2:{ erewrite bind_Ok; [reflexivity|]. apply peer_Write_healthy.
        by eapply healthy_same_conns. }
    eexists. split; [reflexivity|]. simpl. by rewrite <- !app_assoc.
Qed.

(** C5, as the code has it: the answer to a request is the stream tag,
    the length of the blob as 8 little-endian bytes and the blob, which
    is a well-formed frame; the fan-out of [Store] is, after the
    announcement and the pause, the stream tag and the encrypted content
    on each connection, with no length in between. *)
Theorem content_streams_on_the_wire :
  (forall w from key bs peer,
      blobs (store w) !! key = Some bs ->
      peers w !! from = Some peer ->
      healthy w peer ->
      Z.of_nat (length bs) < 2 ^ 63 ->
      snd (handleMessageGetFile from key w) = Ok tt
      /\ outbox (pid peer) (wire_since w (fst (handleMessageGetFile from key w)))
         = IncomingStream :: putInt64 (Z.of_nat (length bs)) ++ bs
      /\ framed IncomingStream
           (outbox (pid peer)
              (wire_since w (fst (handleMessageGetFile from key w)))) = true)
  /\ (forall w key r buf,
      diskFault (store w) = false ->
      gob_encode (mkMessage (Some (MessageStoreFile key
                    (wrap64 (Z.of_nat (length r) + 16))))) = Ok buf ->
      all_healthy w ->
      exists ps1 ps2,
        ps1 ≡ₚ map_to_list (peers w)
        /\ ps2 ≡ₚ map_to_list (peers w)
        /\ wire_since w (fst (Store key r w))
           = control_writes buf ps1
             ++ [Slept 5]
             ++ map (fun ap => Sent (pid (snd ap)) [IncomingStream]) ps2
             ++ map (fun ap => Sent (pid (snd ap)) (encrypt (EncKey w) r)) ps2).
Proof.
  split.
  - intros w from key bs peer Hk Hp Hh Hn.
    destruct (handleMessageGetFile_healthy _ _ _ _ _ Hk Hp Hh) as (w' & Hr & Hw).
    rewrite Hr; simpl. unfold wire_since. rewrite Hw, drop_app_length.
    assert (Ho : outbox (pid peer)
                   ([Sent (pid peer) [IncomingStream];
                     Sent (pid peer) (putInt64 (Z.of_nat (length bs)))]
                    ++ match bs with [] => [] | _ => [Sent (pid peer) bs] end)
                 = IncomingStream :: putInt64 (Z.of_nat (length bs)) ++ bs).
    { cbn [app]. rewrite !outbox_Sent_same. destruct bs as [|b bs].
      - by rewrite !app_nil_r.
      - rewrite outbox_Sent_same. simpl. by rewrite app_nil_r. }
    rewrite Ho. split_and!; try done. by apply framed_put.
  - intros w key r buf Hd He Hh.
    destruct (Store_healthy w key r buf Hd He Hh)
      as (w' & Hs & _ & Hw & _ & _ & _).
    exists (range_order w),
      (range_order (set_rangeOracle (tl (rangeOracle w)) w)).
    split_and!.
    + apply range_order_perm.
    + apply (range_order_perm (set_rangeOracle _ w)).
    + rewrite Hs; simpl. unfold wire_since. by rewrite Hw, drop_app_length.
Qed.

(** What the handler of an announcement does with the bytes it reads. *)
Lemma handleMessageStoreFile_reads w from key size peer c :
  peers w !! from = Some peer ->
  conns w !! pid peer = Some c ->
  diskFault (store w) = false ->
  exists w',
    handleMessageStoreFile from key size w = (w', Ok tt)
    /\ blobs (store w') = <[key := take (Z.to_nat size) (inbox c)]> (blobs (store w))
    /\ conns w' = <[pid peer := mkConn (drop (Z.to_nat size) (inbox c)) (credit c)]> (conns w)
    /\ wire w' = wire w
         ++ [Received (pid peer) (take (Z.to_nat size) (inbox c));
             StreamClosed (pid peer)].
Proof.
  intros Hp Hc Hd. unfold handleMessageStoreFile.
  erewrite bind_Ok.
  2:{ unfold lookup_peer. by rewrite Hp. }
  cbv beta iota. erewrite bind_Ok.
  2:{ unfold store_Write, when_disk_ok. cbn. rewrite Hd.
      unfold bind, peer_Read, conn_of. cbn. rewrite Hc. reflexivity. }
  eexists. split; [reflexivity|]. cbn. split_and!; try done.
  by rewrite <- app_assoc.
Qed.

(** C4, as the code has it: the handler of an announcement reads [size]
    bytes off the connection of the announcing peer (exactly [size] when
    that many are there), writes them under the key as they came, with no
    decryption, and signals that the stream is consumed.  So when the
    bytes waiting are the ciphertext a peer pushed, the store ends up
    holding that ciphertext. *)
Theorem handleMessageStoreFile_stores_bytes_as_received
    w from key size peer c :
  peers w !! from = Some peer ->
  conns w !! pid peer = Some c ->
  diskFault (store w) = false ->
  0 <= size <= Z.of_nat (length (inbox c)) ->
  exists w' body,
    handleMessageStoreFile from key size w = (w', Ok tt)
    /\ body = take (Z.to_nat size) (inbox c)
    /\ Z.of_nat (length body) = size
    /\ blobs (store w') !! key = Some body
    /\ conns w' !! pid peer = Some (mkConn (drop (Z.to_nat size) (inbox c)) (credit c))
    /\ wire_since w w' = [Received (pid peer) body; StreamClosed (pid peer)]
    /\ (forall encKey D rest,
          inbox c = encrypt encKey D ++ rest ->
          size = Z.of_nat (length (encrypt encKey D)) ->
          blobs (store w') !! key = Some (encrypt encKey D)).
Proof.
  intros Hp Hc Hd Hsz.
  destruct (handleMessageStoreFile_reads w from key size peer c Hp Hc Hd)
    as (w' & Hr & Hb & Hcs & Hw).
  exists w', (take (Z.to_nat size) (inbox c)).
  assert (Hkey : blobs (store w') !! key = Some (take (Z.to_nat size) (inbox c)))
    by (rewrite Hb; apply lookup_insert_eq).
  split_and!; try done.
  - rewrite length_take. lia.
  - rewrite Hcs. apply lookup_insert_eq.
  - unfold wire_since. by rewrite Hw, drop_app_length.
  - intros encKey D rest Hin Hs. rewrite Hkey, Hin, Hs, Nat2Z.id.
    by rewrite take_app_length.
Qed.

End Streams.

(** ** Writes that fail *)

Lemma net_blind_static : net_blind static.
Proof. by repeat split. Qed.

Lemma broken_same_conns w w' n : conns w' = conns w -> broken w n -> broken w' n.
Proof. unfold broken. by intros ->. Qed.

Lemma peer_Write_broken w p b :
  broken w (pid p) ->
  peer_Write p b w = (emit_net (SendFailed (pid p) b) w, Err (ErrConn (pid p))).
Proof. unfold broken, peer_Write, conn_of. by intros ->. Qed.

Lemma peer_Write_Ok w p b w' :
  peer_Write p b w = (w', Ok tt) ->
  wire w' = wire w ++ [Sent (pid p) b] /\ ~ broken w (pid p).
Proof.
  unfold peer_Write, broken. fold (conn_of w p).
  destruct (credit (conn_of w p)) as [[|k]|]; intros [= <-]; by split.
Qed.

Lemma peer_Write_Err w p b w' e :
  peer_Write p b w = (w', Err e) ->
  w' = emit_net (SendFailed (pid p) b) w /\ broken w (pid p).
Proof.
  unfold peer_Write, broken. fold (conn_of w p).
  destruct (credit (conn_of w p)) as [[|k]|]; intros [= <-]; by split.
Qed.

Lemma peer_Write_mono w p b n :
  broken w n -> broken (fst (peer_Write p b w)) n.
Proof.
  intros Hn. unfold peer_Write. fold (conn_of w p).
  destruct (credit (conn_of w p)) as [[|k]|] eqn:Hc; simpl; try done.
  - unfold broken; simpl. destruct (decide (n = pid p)) as [->|Hne].
    + unfold broken in Hn. fold (conn_of w p) in Hn. congruence.
    + by rewrite lookup_insert_ne.
  - unfold broken; simpl. destruct (decide (n = pid p)) as [->|Hne].
    + unfold broken in Hn. fold (conn_of w p) in Hn. congruence.
    + by rewrite lookup_insert_ne.
Qed.

(** A multi-writer write that succeeds has written to every writer, and
    none of the connections was broken; one that fails leaves a broken
    connection among the writers. *)
Lemma multi_Write_spec ws b w w' r :
  multi_Write ws b w = (w', r) ->
  match r with
  | Ok _ =>
      wire w' = wire w ++ map (fun p => Sent (pid p) b) ws
      /\ Forall (fun q => ~ broken w (pid q)) ws
  | Err _ => exists q, q ∈ ws /\ broken w' (pid q)
  end.
Proof.
  revert w. induction ws as [|p ws IH]; intros w; simpl.
  - intros [= <- <-]. by rewrite app_nil_r.
  - unfold bind. destruct (peer_Write p b w) as [w1 [[]|e]] eqn:Hp.
    + apply peer_Write_Ok in Hp as Hp'. destruct Hp' as [Hw1 Hnb].
      intros Hrest. specialize (IH _ Hrest). destruct r as [u|e].
      * destruct IH as [Hw' Hall]. split.
        -- rewrite Hw', Hw1. by rewrite <- app_assoc.
        -- constructor; [done|]. eapply Forall_impl; [done|].
           intros q Hq Hb. apply Hq.
           pose proof (peer_Write_mono w p b _ Hb) as Hm. by rewrite Hp in Hm.
      * destruct IH as (q & Hq & Hb). exists q. split; [|done].
        apply elem_of_cons. by right.
    + intros [= <- <-]. apply peer_Write_Err in Hp as [-> Hb].
      exists p. split; [apply elem_of_cons; by left|done].
Qed.

Lemma range_order_ext w w' :
  peers w' = peers w -> rangeOracle w' = rangeOracle w ->
  range_order w' = range_order w.
Proof. unfold range_order. by intros -> ->. Qed.

Section FailedWrites.
Context {gob : Gob} {cipher : CipherStream} {tags : Tags}.

(** A broadcast loop that succeeds has written the tag and the message
    to every peer, none of whose connections was broken. *)
Lemma broadcast_peers_Ok buf ps w w' :
  broadcast_peers buf ps w = (w', Ok tt) ->
  wire w' = wire w ++ control_writes buf ps
  /\ Forall (fun ap => ~ broken w (pid (snd ap))) ps.
Proof.
  revert w. induction ps as [|[a p] ps IH]; intros w; simpl.
  - intros [= <-]. by rewrite app_nil_r.
  - unfold peer_Send. intros H.
    apply bind_inv_Ok in H as (w1 & [] & H1 & H).
    apply bind_inv_Ok in H as (w2 & [] & H2 & H).
    unfold discard in H1. injection H1 as H1.
    pose proof (peer_Write_mono w p [IncomingMessage]) as Hm1.
    destruct (peer_Write p [IncomingMessage] w) as [w1' [[]|e]] eqn:Ht;
      simpl in H1, Hm1; subst w1'.
    + apply peer_Write_Ok in Ht as [Hw1 Hnb].
      apply peer_Write_Ok in H2 as H2'. destruct H2' as [Hw2 _].
      pose proof (peer_Write_mono w1 p buf) as Hm2. rewrite H2 in Hm2.
      destruct (IH _ H) as [Hw' Hall]. split.
      * rewrite Hw', Hw2, Hw1. by rewrite <- !app_assoc.
      * constructor; [done|]. eapply Forall_impl; [done|].
        intros q Hq Hb. apply Hq. apply Hm2. by apply Hm1.
    + apply peer_Write_Err in Ht as [-> Hb].
      rewrite peer_Write_broken in H2; [done|].
      by eapply broken_same_conns.
Qed.

(** What a [Store] that returns no error has done. *)
Lemma Store_Ok w key r w' :
  Store key r w = (w', Ok tt) ->
  diskFault (store w) = false
  /\ exists buf,
      gob_encode (mkMessage (Some (MessageStoreFile key
                    (wrap64 (Z.of_nat (length r) + 16))))) = Ok buf
      /\ store w' = put key r (store w)
      /\ wire w' = wire w
           ++ control_writes buf (range_order w)
           ++ [Slept 5]
           ++ stream_writes (encrypt (EncKey w) r)
                (range_order (set_rangeOracle (tl (rangeOracle w)) w))
      /\ (forall a p, peers w !! a = Some p -> ~ broken w (pid p)).
Proof.
  unfold Store. intros H.
  apply bind_inv_Ok in H as (w1 & size & H1 & H).
  unfold store_Write, when_disk_ok in H1.
  destruct (diskFault (store w)) eqn:Hd; [done|]. split; [done|].
  cbn in H1. injection H1 as <- <-.
  apply bind_inv_Ok in H as (w2 & [] & H2 & H).
  unfold broadcast in H2.
  apply bind_inv_Ok in H2 as (w1' & buf & He & H2).
  unfold lift in He. injection He as <- He.
  apply bind_inv_Ok in H2 as (w1r & ps1 & Hr1 & H2).
  unfold range_peers in Hr1. injection Hr1 as <- <-.
  pose proof (keeps_eq static _ _ _ _
                (keeps_broadcast_peers static _ _ net_blind_static) H2) as Hs2.
  apply broadcast_peers_Ok in H2 as [Hw2 Hnb].
  apply bind_inv_Ok in H as (w3 & [] & H3 & H).
  unfold Sleep, act in H3. injection H3 as <-.
  apply bind_inv_Ok in H as (w4 & ps2 & Hr2 & H).
  unfold range_peers in Hr2. injection Hr2 as <- <-.
  apply bind_inv_Ok in H as (w5 & [] & H5 & H).
  unfold discard in H5. injection H5 as H5.
  apply bind_inv_Ok in H as (w5' & encKey & Hk & H).
  unfold ask in Hk. injection Hk as <- <-.
  apply bind_inv_Ok in H as (w6 & n & H6 & H).
  unfold copyEncrypt in H6.
  apply bind_inv_Ok in H6 as (w6' & [] & H6 & Hn).
  unfold ret in Hn. injection Hn as <- <-.
  unfold Printf, act in H. injection H as <-.
  unfold static in Hs2. cbn in Hs2. injection Hs2 as HK Hst Hpe Hor Hsy.
  set (ps2 := range_order (emit_net (Slept 5) w2)) in *.
  set (w4 := emit_sync PeersRange
               (set_rangeOracle (tl (rangeOracle w2)) (emit_net (Slept 5) w2)))
    in *.
  destruct (multi_Write (map snd ps2) [IncomingStream] w4) as [w5' r5] eqn:Hm5.
  simpl in H5. subst w5'.
  pose proof (keeps_eq static _ _ _ _
                (keeps_multi_Write static net_blind_static _ _) Hm5) as Hs5.
  unfold static in Hs5. injection Hs5 as HK5 Hst5 Hpe5 Hor5 Hsy5.
  pose proof (keeps_eq static _ _ _ _
                (keeps_multi_Write static net_blind_static _ _) H6) as Hs6.
  unfold static in Hs6. injection Hs6 as HK6 Hst6 Hpe6 Hor6 Hsy6.
  apply multi_Write_spec in H6 as [Hw6 Hnb6].
  apply multi_Write_spec in Hm5. destruct r5 as [u|e].
  2:{ destruct Hm5 as (q & Hq & Hb). exfalso.
      rewrite Forall_forall in Hnb6. by apply (Hnb6 q). }
  destruct Hm5 as [Hw5 _].
  exists buf. split; [done|].
  assert (Hps2 : ps2 = range_order (set_rangeOracle (tl (rangeOracle w)) w)).
  { subst ps2. apply range_order_ext; cbn; by rewrite ?Hpe, ?Hor. }
  assert (HK4 : EncKey w5 = EncKey w) by (rewrite HK5; subst w4; cbn; done).
  split_and!.
  - cbn. rewrite Hst6, Hst5. subst w4. cbn. by rewrite Hst.
  - cbn. rewrite Hw6, Hw5, HK4. subst w4. cbn. rewrite Hw2. cbn.
    unfold stream_writes. rewrite <- Hps2, !map_map, <- !app_assoc. done.
  - intros a p Hp Hb. rewrite Forall_forall in Hnb.
    apply (Hnb (a, p)).
    + apply range_order_registered. by cbn.
    + by eapply broken_same_conns.
Qed.

Lemma control_writes_no_failure buf ps :
  Forall (fun e => is_SendFailed e = false) (control_writes buf ps).
Proof.
  apply Forall_forall. intros e He. unfold control_writes in He.
  apply list_elem_of_In, in_flat_map in He as (ap & _ & Hin).
  simpl in Hin. by destruct Hin as [<-|[<-|[]]].
Qed.

Lemma stream_writes_no_failure ct ps :
  Forall (fun e => is_SendFailed e = false) (stream_writes ct ps).
Proof.
  unfold stream_writes. apply Forall_app. split; apply Forall_forall;
    intros e He; apply list_elem_of_In, in_map_iff in He as (ap & <- & _); done.
Qed.

(** C6: a failed local write makes [Store] return the error with nothing
    else done; an error of [broadcast] is returned as it is, the fan-out
    not being attempted; and no failed write to a peer goes unreported:
    if any write to a connection failed during the call, or if the
    registry holds a peer whose connection is broken, the call returns an
    error, a single one for the whole call. *)
Theorem Store_returns_error_of_local_write_and_of_any_failed_peer_write
    w key r :
  (diskFault (store w) = true -> Store key r w = (w, Err ErrDisk))
  /\ (forall w1 e,
        diskFault (store w) = false ->
        broadcast (mkMessage (Some (MessageStoreFile key
                     (wrap64 (Z.of_nat (length r) + 16)))))
          (set_store (put key r) w) = (w1, Err e) ->
        Store key r w = (w1, Err e))
  /\ ((exists p b, SendFailed p b ∈ wire_since w (fst (Store key r w))) ->
      exists e, snd (Store key r w) = Err e)
  /\ (forall a p,
        peers w !! a = Some p -> broken w (pid p) ->
        exists e, snd (Store key r w) = Err e).
Proof.
  split_and!.
  - intros Hd. unfold Store, bind, store_Write, when_disk_ok. by rewrite Hd.
  - intros w1 e Hd Hb. unfold Store.
    erewrite bind_Ok.
    2:{ unfold store_Write, when_disk_ok. rewrite Hd. reflexivity. }
    cbn [length]. by erewrite bind_Err.
  - intros (p & b & Hin).
    destruct (Store key r w) as [w' [[]|e]] eqn:Hs; [|by exists e].
    exfalso. apply Store_Ok in Hs as (_ & buf & _ & _ & Hw & _).
    simpl in Hin. unfold wire_since in Hin. rewrite Hw, drop_app_length in Hin.
    assert (Hall : Forall (fun e => is_SendFailed e = false)
                     (control_writes buf (range_order w) ++ [Slept 5]
                      ++ stream_writes (encrypt (EncKey w) r)
                           (range_order (set_rangeOracle (tl (rangeOracle w)) w)))).
    { apply Forall_app. split; [apply control_writes_no_failure|].
      apply Forall_app. split; [by repeat constructor|].
      apply stream_writes_no_failure. }
    rewrite Forall_forall in Hall. by specialize (Hall _ Hin).
  - intros a p Hp Hb.
    destruct (Store key r w) as [w' [[]|e]] eqn:Hs; [|by exists e].
    exfalso. apply Store_Ok in Hs as (_ & buf & _ & _ & _ & Hnb).
    by apply (Hnb a p).
Qed.

End FailedWrites.

(** ** Fetching from the network *)


Section RemoteGet.
Context {gob : Gob} {cipher : CipherStream} {tags : Tags}.

Lemma Get_peers_step key a p rest w c pt :
  conns w !! pid p = Some c ->
  (8 <= length (inbox c))%nat ->
  diskFault (store w) = false ->
  decrypt (EncKey w) (answer_body c) = Ok pt ->
  Get_peers key ((a, p) :: rest) w
  = Get_peers key rest (after_fetch key p c pt w).
Proof.
  intros Hc Hl Hd Hpt. cbn [Get_peers].
  erewrite bind_Ok.
  2:{ unfold recover, binary_Read, bind, peer_Read, conn_of. rewrite Hc.
      cbn [default]. rewrite length_take, Nat.min_l by done.
      cbn. reflexivity. }
  erewrite bind_Ok by reflexivity.
  erewrite bind_Ok.
  2:{ unfold store_WriteDecrypt, when_disk_ok. cbn. rewrite Hd.
      unfold bind, peer_Read, conn_of. cbn. rewrite lookup_insert_eq. cbn.
      fold (answer_size c). fold (answer_body c). rewrite Hpt. reflexivity. }
  erewrite bind_Ok by reflexivity.
  erewrite bind_Ok by reflexivity.
  reflexivity.
Qed.








End RemoteGet.

(** * More about the node *)

(** ** What a call leaves of the world *)

Lemma keeps_range_peers_blind {A} (f : World -> A) :
  access_blind f -> keeps f range_peers.
Proof. intros [He Ho] w. unfold range_peers; simpl. by rewrite He, Ho. Qed.

Lemma keeps_lookup_peer_blind {A} (f : World -> A) from :
  access_blind f -> keeps f (lookup_peer from).
Proof. intros [He Ho] w. unfold lookup_peer; simpl. by rewrite He. Qed.

Lemma access_blind_store : access_blind store.
Proof. by split. Qed.

Lemma net_blind_blob_at key : net_blind (blob_at key).
Proof. by repeat split. Qed.

Lemma access_blind_blob_at key : access_blind (blob_at key).
Proof. by split. Qed.

Lemma keeps_put_other key key' bs :
  key' <> key -> keeps (blob_at key') (act (set_store (put key bs))).
Proof.
  intros Hne w. unfold blob_at; simpl. by rewrite lookup_insert_ne.
Qed.

Section Frames.
Context {gob : Gob} {cipher : CipherStream} {tags : Tags}.

Lemma keeps_broadcast_blind {A} (f : World -> A) msg :
  net_blind f -> access_blind f -> keeps f (broadcast msg).
Proof.
  intros Hn Ha. unfold broadcast.
  pose proof (keeps_broadcast_peers f).
  pose proof (keeps_range_peers_blind f Ha).
  keeps_auto.
Qed.

(** What [Store] does once the local write is done. *)
Lemma keeps_Store_rest {A} (f : World -> A) key r size :
  net_blind f -> access_blind f ->
  keeps f
    (broadcast (mkMessage (Some (MessageStoreFile key (wrap64 (size + 16))))) ;;;
     Sleep 5 ;;;
     ps <- range_peers ;;
     discard (multi_Write (map snd ps) [IncomingStream]) ;;;
     encKey <- ask EncKey ;;
     n <- copyEncrypt encKey r (multi_Write (map snd ps)) ;;
     Printf (ReceivedAndWritten n)).
Proof.
  intros Hn Ha.
  pose proof (keeps_broadcast_blind f).
  pose proof (keeps_range_peers_blind f Ha).
  unfold copyEncrypt. keeps_auto.
Qed.

Lemma Store_unfold_sound w key r :
  diskFault (store w) = false ->
  Store key r w
  = (broadcast (mkMessage (Some (MessageStoreFile key
                  (wrap64 (Z.of_nat (length r) + 16))))) ;;;
     Sleep 5 ;;;
     ps <- range_peers ;;
     discard (multi_Write (map snd ps) [IncomingStream]) ;;;
     encKey <- ask EncKey ;;
     n <- copyEncrypt encKey r (multi_Write (map snd ps)) ;;
     Printf (ReceivedAndWritten n)) (set_store (put key r) w).
Proof.
  intros Hd. unfold Store.
  rewrite (bind_Ok _ _ w (set_store (put key r) w) (Z.of_nat (length r))).
  - reflexivity.
  - unfold store_Write, when_disk_ok. by rewrite Hd.
Qed.

Lemma Store_store w key r :
  diskFault (store w) = false ->
  store (fst (Store key r w)) = put key r (store w).
Proof.
  intros Hd. rewrite (Store_unfold_sound w key r Hd).
  apply (keeps_Store_rest store key r (Z.of_nat (length r))
           net_blind_store access_blind_store (set_store (put key r) w)).
Qed.

(** X2: the local write of [Store] is never undone.  On a sound disk
    the content is under the key when [Store] returns, whether the
    replication went through or returned an error, every other key being
    as before; on a disk that cannot be written [Store] changes
    nothing. *)
Theorem Store_keeps_local_blob_whatever_replication_does w key r :
  (diskFault (store w) = false ->
   store (fst (Store key r w)) = put key r (store w)
   /\ blobs (store (fst (Store key r w))) !! key = Some r
   /\ (forall key', key' <> key ->
         blobs (store (fst (Store key r w))) !! key' = blobs (store w) !! key'))
  /\ (diskFault (store w) = true -> fst (Store key r w) = w).
Proof.
  split.
  - intros Hd. rewrite (Store_store w key r Hd). cbn [put blobs].
    split_and!; [done|apply lookup_insert_eq|].
    intros key' Hne. by apply lookup_insert_ne.
  - intros Hd. unfold Store, bind, store_Write, when_disk_ok. by rewrite Hd.
Qed.

(** X3: what was stored last is what [Get] returns, from the local
    store and without touching the network, whatever the registry holds
    and whatever became of the replication. *)
Theorem Store_then_Get_returns_last_content w key r1 r2 :
  diskFault (store w) = false ->
  Get key (fst (Store key r1 w))
  = (emit_line (ServingLocal key) (fst (Store key r1 w)), Ok r1)
  /\ Get key (fst (Store key r2 (fst (Store key r1 w))))
     = (emit_line (ServingLocal key) (fst (Store key r2 (fst (Store key r1 w)))),
        Ok r2).
Proof.
  intros Hd.
  pose proof (Store_store w key r1 Hd) as Hs1.
  assert (Hd1 : diskFault (store (fst (Store key r1 w))) = false)
    by (by rewrite Hs1).
  pose proof (Store_store (fst (Store key r1 w)) key r2 Hd1) as Hs2.
  split; apply Get_local.
  - rewrite Hs1. apply lookup_insert_eq.
  - rewrite Hs2. apply lookup_insert_eq.
Qed.

(** X4: what [Get] returns is in the local store when it returns, so
    that a blob fetched from the peers is kept and the next [Get] of the
    key serves it from the disk, without the network. *)
Theorem Get_leaves_what_it_returns_in_the_store w w' key bs :
  Get key w = (w', Ok bs) ->
  blobs (store w') !! key = Some bs
  /\ Get key w' = (emit_line (ServingLocal key) w', Ok bs).
Proof.
  intros HG.
  assert (Hk : blobs (store w') !! key = Some bs).
  { unfold Get in HG.
    apply bind_inv_Ok in HG as (w1 & has & _ & HG).
    assert (Hend : forall v, (x <- store_Read key ;; ret (snd x)) v = (w', Ok bs) ->
                     blobs (store w') !! key = Some bs).
    { intros v Hv. unfold bind, store_Read, ret in Hv.
      destruct (blobs (store v) !! key) as [bs'|] eqn:E; [|done].
      by injection Hv as <- <-. }
    destruct has.
    - apply bind_inv_Ok in HG as (w2 & [] & _ & HG). by apply (Hend w2).
    - apply bind_inv_Ok in HG as (w2 & [] & _ & HG).
      apply bind_inv_Ok in HG as (w3 & [] & _ & HG).
      apply bind_inv_Ok in HG as (w4 & [] & _ & HG).
      apply bind_inv_Ok in HG as (w5 & ps & _ & HG).
      apply bind_inv_Ok in HG as (w6 & [] & _ & HG). by apply (Hend w6). }
  split; [done|]. by apply Get_local.
Qed.

Lemma keeps_store_Write_other key key' r :
  key' <> key -> keeps (blob_at key') r -> keeps (blob_at key') (store_Write key r).
Proof.
  intros Hne Hr. pose proof (keeps_put_other key key') as Hput.
  unfold store_Write. keeps_auto.
Qed.

Lemma keeps_store_WriteDecrypt_other k key key' r :
  key' <> key -> keeps (blob_at key') r ->
  keeps (blob_at key') (store_WriteDecrypt k key r).
Proof.
  intros Hne Hr. pose proof (keeps_put_other key key') as Hput.
  unfold store_WriteDecrypt. keeps_auto.
Qed.

Lemma keeps_Get_peers_other key key' ps :
  key' <> key -> keeps (blob_at key') (Get_peers key ps).
Proof.
  intros Hne.
  pose proof (net_blind_blob_at key') as Hn.
  pose proof (keeps_store_WriteDecrypt_other) as HW.
  induction ps as [|[a p] ps IH]; simpl; [keeps_auto|].
  unfold binary_Read. keeps_auto.
Qed.

(** X5: an operation writes no key but the one it is given: [Get],
    [Store] and the handler of an announcement leave every other key of
    the store, and the state of the disk, as they were; and answering a
    request writes nothing to the store at all. *)
Theorem operations_write_only_the_key_they_are_given w key key' :
  key' <> key ->
  blob_at key' (fst (Get key w)) = blob_at key' w
  /\ (forall r, blob_at key' (fst (Store key r w)) = blob_at key' w)
  /\ (forall from Size,
        blob_at key' (fst (handleMessageStoreFile from key Size w)) = blob_at key' w)
  /\ (forall from k, store (fst (handleMessageGetFile from k w)) = store w).
Proof.
  intros Hne.
  pose proof (net_blind_blob_at key') as Hn.
  pose proof (access_blind_blob_at key') as Ha.
  pose proof (keeps_range_peers_blind _ Ha) as Hr.
  pose proof (keeps_lookup_peer_blind (blob_at key')) as Hl.
  pose proof (keeps_broadcast_blind (blob_at key')) as Hb.
  pose proof (keeps_Get_peers_other key key') as HG.
  pose proof (keeps_store_Write_other key key') as HW.
  pose proof (@keeps_store_Read _ (blob_at key')) as HR.
  split_and!.
  - assert (K : keeps (blob_at key') (Get key)); [|apply K].
    unfold Get, store_Has. keeps_auto.
  - intros r. assert (K : keeps (blob_at key') (Store key r)); [|apply K].
    unfold Store, copyEncrypt. keeps_auto.
  - intros from Size.
    assert (K : keeps (blob_at key') (handleMessageStoreFile from key Size));
      [|apply K].
    unfold handleMessageStoreFile. keeps_auto.
  - intros from k.
    assert (K : keeps store (handleMessageGetFile from k)); [|apply K].
    pose proof net_blind_store.
    pose proof (keeps_lookup_peer_blind store from access_blind_store).
    pose proof (@keeps_store_Read _ store).
    unfold handleMessageGetFile, store_Has, peer_Send, binary_Write. keeps_auto.
Qed.

End Frames.

(** ** The edges of the two handlers *)

Section Handlers.
Context {gob : Gob} {cipher : CipherStream} {tags : Tags}.






End Handlers.

(** ** Who reads and who writes *)

Lemma keeps_peer_Write_reads p b : keeps reads (peer_Write p b).
Proof.
  intros w. unfold peer_Write, reads.
  destruct (credit (conn_of w p)) as [[|n]|]; cbn;
    rewrite List.filter_app; cbn; by rewrite app_nil_r.
Qed.

Lemma keeps_peer_Write_not_writes p b : keeps not_writes (peer_Write p b).
Proof.
  intros w. unfold peer_Write, not_writes.
  destruct (credit (conn_of w p)) as [[|n]|]; cbn;
    rewrite List.filter_app; cbn; by rewrite app_nil_r.
Qed.

Lemma keeps_peer_Write_inbox_of n p b : keeps (inbox_of n) (peer_Write p b).
Proof.
  intros w. unfold peer_Write, inbox_of.
  destruct (credit (conn_of w p)) as [[|k]|]; cbn; [done| |];
    (destruct (decide (n = pid p)) as [->|Hne];
     [by rewrite lookup_insert_eq|by rewrite lookup_insert_ne]).
Qed.

Lemma write_blind_reads : write_blind reads.
Proof. split_and!; [apply keeps_peer_Write_reads|done..]. Qed.

Lemma write_blind_not_writes : write_blind not_writes.
Proof. split_and!; [apply keeps_peer_Write_not_writes|done..]. Qed.

Lemma write_blind_inbox_of n : write_blind (inbox_of n).
Proof. split_and!; [apply keeps_peer_Write_inbox_of|done..]. Qed.

Section WriteBlind.
Context {gob : Gob} {cipher : CipherStream} {tags : Tags}.
Context {A : Type} (f : World -> A) (Hf : write_blind f).

Lemma blind_Printf l : keeps f (Printf l).
Proof. destruct Hf as (_ & Hl & _). intros w. apply Hl. Qed.

Lemma blind_range_peers : keeps f range_peers.
Proof.
  destruct Hf as (_ & _ & He & Ho). apply keeps_range_peers_blind. by split.
Qed.

Lemma blind_lookup_peer from : keeps f (lookup_peer from).
Proof.
  destruct Hf as (_ & _ & He & Ho). apply keeps_lookup_peer_blind. by split.
Qed.

Lemma blind_multi_Write ws b : keeps f (multi_Write ws b).
Proof.
  destruct Hf as (Hw & _).
  induction ws as [|p ws IH]; simpl; keeps_auto.
Qed.

Lemma blind_broadcast_peers buf ps : keeps f (broadcast_peers buf ps).
Proof.
  destruct Hf as (Hw & _).
  induction ps as [|[a p] ps IH]; simpl; unfold peer_Send; keeps_auto.
Qed.

Lemma blind_broadcast msg : keeps f (broadcast msg).
Proof.
  pose proof blind_range_peers. pose proof blind_broadcast_peers.
  unfold broadcast. keeps_auto.
Qed.

Lemma blind_handleMessageGetFile from key : keeps f (handleMessageGetFile from key).
Proof.
  pose proof blind_Printf. pose proof blind_lookup_peer.
  pose proof (@keeps_store_Read _ f).
  destruct Hf as (Hw & _).
  unfold handleMessageGetFile, store_Has, peer_Send, binary_Write, io_Copy.
  keeps_auto.
Qed.

Lemma blind_Store key r :
  (forall g w, f (set_store g w) = f w) ->
  (forall ms w, f (emit_net (Slept ms) w) = f w) ->
  keeps f (Store key r).
Proof.
  intros Hs Hz.
  pose proof blind_Printf. pose proof blind_range_peers.
  pose proof blind_broadcast. pose proof blind_multi_Write.
  assert (Hact : forall g, keeps f (act (set_store g)))
    by (intros g w; apply Hs).
  assert (Hsl : forall ms, keeps f (Sleep ms)) by (intros ms w; apply Hz).
  unfold Store, store_Write, copyEncrypt. keeps_auto.
Qed.

End WriteBlind.

Section Discipline.
Context {gob : Gob} {cipher : CipherStream} {tags : Tags}.

(** X9: the senders never read and the receiver never writes.  [Store]
    and the handler of a request take no byte from any connection: the
    bytes that wait on each connection, and the reads recorded on the
    wire, are as before.  The handler of an announcement writes to no
    connection: the writes recorded on the wire, and what each
    connection still accepts, are as before. *)
Theorem senders_never_read_and_receiver_never_writes w n :
  (forall key r,
      reads (fst (Store key r w)) = reads w
      /\ inbox_of n (fst (Store key r w)) = inbox_of n w)
  /\ (forall from key,
      reads (fst (handleMessageGetFile from key w)) = reads w
      /\ inbox_of n (fst (handleMessageGetFile from key w)) = inbox_of n w)
  /\ (forall from key Size,
      writes (fst (handleMessageStoreFile from key Size w)) = writes w
      /\ credit_of n (fst (handleMessageStoreFile from key Size w)) = credit_of n w).
Proof.
  split_and!.
  - intros key r. split.
    + apply (blind_Store reads write_blind_reads); [done|].
      intros ms v. unfold reads. cbn. rewrite List.filter_app. cbn.
      by rewrite app_nil_r.
    + by apply (blind_Store (inbox_of n) (write_blind_inbox_of n)).
  - intros from key. split.
    + apply (blind_handleMessageGetFile reads write_blind_reads).
    + apply (blind_handleMessageGetFile (inbox_of n) (write_blind_inbox_of n)).
  - intros from key Size.
    unfold handleMessageStoreFile, bind, lookup_peer.
    destruct (peers w !! from) as [peer|]; cbn [fst snd]; [|done].
    unfold store_Write, when_disk_ok. cbn [store emit_sync].
    destruct (diskFault (store w)); cbn; [done|]. split.
    + unfold writes. cbn. rewrite !List.filter_app. cbn. by rewrite !app_nil_r.
    + unfold credit_of, conn_of. cbn.
      destruct (decide (n = pid peer)) as [->|Hne];
        [by rewrite lookup_insert_eq|by rewrite lookup_insert_ne].
Qed.

Lemma broadcast_peers_app buf ps1 ps2 w :
  broadcast_peers buf (ps1 ++ ps2) w
  = (broadcast_peers buf ps1 ;;; broadcast_peers buf ps2) w.
Proof.
  revert w. induction ps1 as [|[a p] ps1 IH]; intros w; [done|].
  cbn [app broadcast_peers]. unfold bind, discard.
  destruct (peer_Send p [IncomingMessage] w) as [w1 r1]. cbn [fst].
  destruct (peer_Send p buf w1) as [w2 [[]|e]]; [|reflexivity].
  rewrite IH. reflexivity.
Qed.

(** A broadcast that meets a broken connection after connections that
    never break. *)
Lemma broadcast_peers_stops buf pre a p post w :
  Forall (fun ap => healthy w (snd ap)) pre ->
  broken w (pid p) ->
  broadcast_peers buf (pre ++ (a, p) :: post) w
  = (emit_nets (control_writes buf pre
                ++ [SendFailed (pid p) [IncomingMessage]; SendFailed (pid p) buf]) w,
     Err (ErrConn (pid p))).
Proof.
  intros Hpre Hb. rewrite broadcast_peers_app.
  erewrite bind_Ok by (by apply broadcast_peers_healthy).
  cbn [broadcast_peers]. unfold peer_Send.
  erewrite bind_Ok.
  2:{ eapply discard_eq. apply peer_Write_broken.
      by apply (broken_same_conns w). }
  erewrite bind_Err.
  2:{ apply peer_Write_broken. by apply (broken_same_conns w). }
  f_equal. unfold emit_nets, emit_net. cbn. by rewrite <- !app_assoc.
Qed.

Lemma broadcast_stops_at w msg buf pre a p post :
  gob_encode msg = Ok buf ->
  range_order w = pre ++ (a, p) :: post ->
  Forall (fun ap => healthy w (snd ap)) pre ->
  broken w (pid p) ->
  snd (broadcast msg w) = Err (ErrConn (pid p))
  /\ wire (fst (broadcast msg w))
     = wire w ++ control_writes buf pre
       ++ [SendFailed (pid p) [IncomingMessage]; SendFailed (pid p) buf].
Proof.
  intros He Hr Hpre Hb. unfold broadcast.
  erewrite bind_Ok by (unfold lift; rewrite He; reflexivity).
  erewrite bind_Ok by reflexivity. rewrite Hr.
  rewrite broadcast_peers_stops; [|done..].
  cbn [fst snd]. split; [done|]. reflexivity.
Qed.

(** X10: [broadcast] stops at the first connection that refuses the
    message.  When the range reaches a peer whose connection is broken
    after peers whose connections are sound, these have received the tag
    and the message, the two writes to the broken one are refused, the
    error of the second is returned, and the peers that the range had
    not reached yet are sent nothing. *)
Theorem broadcast_stops_at_first_broken_connection msg buf w pre a p post :
  gob_encode msg = Ok buf ->
  range_order w = pre ++ (a, p) :: post ->
  Forall (fun ap => healthy w (snd ap)) pre ->
  broken w (pid p) ->
  snd (broadcast msg w) = Err (ErrConn (pid p))
  /\ wire_since w (fst (broadcast msg w))
     = control_writes buf pre
       ++ [SendFailed (pid p) [IncomingMessage]; SendFailed (pid p) buf]
  /\ conns (fst (broadcast msg w)) = conns w.
Proof.
  intros He Hr Hpre Hb. unfold broadcast.
  erewrite bind_Ok by (unfold lift; rewrite He; reflexivity).
  erewrite bind_Ok by reflexivity. rewrite Hr.
  rewrite broadcast_peers_stops; [|done..].
  cbn [fst snd]. split_and!; [done| |done].
  unfold wire_since. cbn. by rewrite drop_app_length.
Qed.

(** X11: a replication that fails in the announcement leaves the content
    on the local disk and nothing else of it anywhere.  [Store] returns
    the error of the refused write; the peers visited before the broken
    connection hold an announcement of a stream that is never sent, no
    stream tag and no content being written to any connection. *)
Theorem Store_interrupted_by_broken_connection w key r buf pre a p post :
  diskFault (store w) = false ->
  gob_encode (mkMessage (Some (MessageStoreFile key
                (wrap64 (Z.of_nat (length r) + 16))))) = Ok buf ->
  range_order w = pre ++ (a, p) :: post ->
  Forall (fun ap => healthy w (snd ap)) pre ->
  broken w (pid p) ->
  snd (Store key r w) = Err (ErrConn (pid p))
  /\ blobs (store (fst (Store key r w))) !! key = Some r
  /\ wire (fst (Store key r w))
     = wire w ++ control_writes buf pre
       ++ [SendFailed (pid p) [IncomingMessage]; SendFailed (pid p) buf].
Proof.
  intros Hd He Hr Hpre Hb.
  pose proof (Store_store w key r Hd) as Hst.
  rewrite (Store_unfold_sound w key r Hd) in Hst |- *.
  set (w1 := set_store (put key r) w) in *.
  assert (Hr1 : range_order w1 = pre ++ (a, p) :: post)
    by (rewrite <- Hr; by apply range_order_ext).
  assert (Hpre1 : Forall (fun ap => healthy w1 (snd ap)) pre).
  { eapply Forall_impl; [exact Hpre|]. intros ap. by apply healthy_same_conns. }
  assert (Hb1 : broken w1 (pid p)) by (by apply (broken_same_conns w)).
  destruct (broadcast_stops_at w1 _ buf pre a p post He Hr1 Hpre1 Hb1)
    as (Hs & Hw).
  destruct (broadcast _ w1) as [w2 res] eqn:Hbr. cbn [fst snd] in Hs, Hw.
  subst res. rewrite (bind_Err _ _ w1 w2 _ Hbr) in Hst |- *.
  cbn [fst snd] in Hst |- *. split_and!; [done| |done].
  rewrite Hst. apply lookup_insert_eq.
Qed.

Lemma broadcast_broken msg w a p :
  peers w !! a = Some p -> broken w (pid p) ->
  exists e, snd (broadcast msg w) = Err e.
Proof.
  intros Hp Hb. unfold broadcast, bind at 1, lift.
  destruct (gob_encode msg) as [buf|e]; [|by exists e].
  erewrite bind_Ok by reflexivity.
  destruct (broadcast_peers buf (range_order w) _) as [w' [[]|e]] eqn:E;
    [|by exists e].
  exfalso. apply broadcast_peers_Ok in E as [_ Hall].
  rewrite Forall_forall in Hall.
  apply (Hall (a, p)); [by apply range_order_registered|].
  by apply (broken_same_conns w).
Qed.

(** X12: [Get] gives up when the request cannot be sent.  For a key that
    is not on the disk and with a peer in the registry whose connection
    is broken, [Get] returns an error without waiting for any answer:
    apart from its attempts to write, nothing happens on the wire (no
    pause, no read, no [CloseStream]), no byte is taken from any
    connection, also of the peers that did receive the request, and the
    store is as before. *)
Theorem Get_gives_up_when_the_request_cannot_be_sent w key a p :
  blobs (store w) !! key = None ->
  peers w !! a = Some p ->
  broken w (pid p) ->
  (exists e, snd (Get key w) = Err e)
  /\ store (fst (Get key w)) = store w
  /\ not_writes (fst (Get key w)) = not_writes w
  /\ (forall n, inbox_of n (fst (Get key w)) = inbox_of n w).
Proof.
  intros Hk Hp Hb. unfold Get.
  erewrite bind_Ok.
  2:{ unfold store_Has, ask. rewrite Hk.
      rewrite bool_decide_eq_false_2 by (by intros [? ?]). reflexivity. }
  cbv beta iota. erewrite bind_Ok by reflexivity.
  set (w1 := emit_line (FetchingFromNetwork key) w).
  set (msg := mkMessage (Some (MessageGetFile key))).
  destruct (broadcast_broken msg w1 a p Hp) as [e He];
    [by apply (broken_same_conns w)|].
  pose proof (keeps_broadcast_blind store msg net_blind_store
                access_blind_store w1) as Hs.
  pose proof (blind_broadcast not_writes write_blind_not_writes msg w1) as Hn.
  pose proof (fun n => blind_broadcast (inbox_of n) (write_blind_inbox_of n)
                         msg w1) as Hi.
  destruct (broadcast msg w1) as [w2 res] eqn:Hbr. cbn [fst snd] in *. subst res.
  rewrite (bind_Err _ _ w1 w2 _ Hbr). cbn [fst snd].
  split_and!; [by exists e|done|done|done].
Qed.



(** The head of a connection on which a length and that many bytes
    wait. *)
Lemma answer_of_stream c ct rest :
  inbox c = putInt64 (Z.of_nat (length ct)) ++ ct ++ rest ->
  Z.of_nat (length ct) < 2 ^ 63 ->
  (8 <= length (inbox c))%nat
  /\ answer_size c = Z.of_nat (length ct)
  /\ answer_body c = ct
  /\ answer_rest c = mkConn rest (credit c).
Proof.
  intros Hi Hn.
  assert (Hl : length (putInt64 (Z.of_nat (length ct))) = 8%nat)
    by apply length_le_bytes.
  assert (Hsz : answer_size c = Z.of_nat (length ct)).
  { unfold answer_size. rewrite Hi.
    rewrite (take_app_length' _ _ 8 (eq_sym Hl)).
    apply getInt64_putInt64. lia. }
  split_and!; [|done| |].
  - rewrite Hi, length_app. lia.
  - unfold answer_body. rewrite Hsz, Nat2Z.id, Hi.
    rewrite (drop_app_length' _ _ 8 (eq_sym Hl)). by rewrite take_app_length.
  - unfold answer_rest. rewrite Hsz, Nat2Z.id, Hi.
    rewrite (drop_app_length' _ _ 8 (eq_sym Hl)). by rewrite drop_app_length.
Qed.

(** X14: the answer to a request is read back by the fetch loop of
    [Get].  Take what the handler of a request writes for a blob on a
    sound connection, less the tag byte that tells the receiving
    transport a stream follows: on the other end the loop of [Get] takes
    the length from the first 8 bytes, reads exactly the blob, stores
    its decryption under the key and leaves on the connection what came
    after the answer. *)
Theorem Get_reads_back_the_answer_of_handleMessageGetFile
    wB from key ct peerB wA a p rest cr keyA pt :
  blobs (store wB) !! key = Some ct ->
  peers wB !! from = Some peerB ->
  healthy wB peerB ->
  Z.of_nat (length ct) < 2 ^ 63 ->
  conns wA !! pid p
  = Some (mkConn
            (drop 1 (outbox (pid peerB)
                       (wire_since wB (fst (handleMessageGetFile from key wB))))
             ++ rest) cr) ->
  diskFault (store wA) = false ->
  decrypt (EncKey wA) ct = Ok pt ->
  outbox (pid peerB) (wire_since wB (fst (handleMessageGetFile from key wB)))
  = IncomingStream :: putInt64 (Z.of_nat (length ct)) ++ ct
  /\ snd (Get_peers keyA [(a, p)] wA) = Ok tt
  /\ blobs (store (fst (Get_peers keyA [(a, p)] wA))) !! keyA = Some pt
  /\ inbox_of (pid p) (fst (Get_peers keyA [(a, p)] wA)) = rest.
Proof.
  intros Hk Hp Hh Hn Hc Hd Hdec.
  destruct (handleMessageGetFile_healthy _ _ _ _ _ Hk Hp Hh) as (w' & Hr & Hw).
  rewrite Hr in Hc |- *. cbn [fst] in Hc |- *.
  unfold wire_since in Hc |- *. rewrite Hw, drop_app_length in Hc |- *.
  assert (Ho : outbox (pid peerB)
                 ([Sent (pid peerB) [IncomingStream];
                   Sent (pid peerB) (putInt64 (Z.of_nat (length ct)))]
                  ++ match ct with [] => [] | _ => [Sent (pid peerB) ct] end)
               = IncomingStream :: putInt64 (Z.of_nat (length ct)) ++ ct).
  { cbn [app]. rewrite !outbox_Sent_same. destruct ct as [|b bs].
    - by rewrite !app_nil_r.
    - rewrite outbox_Sent_same. simpl. by rewrite app_nil_r. }
  rewrite Ho in Hc |- *. split; [done|].
  cbn [drop] in Hc. rewrite drop_0, <- app_assoc in Hc.
  set (c := mkConn (putInt64 (Z.of_nat (length ct)) ++ ct ++ rest) cr) in *.
  destruct (answer_of_stream c ct rest eq_refl Hn) as (Hl & _ & Hbody & Hrest).
  rewrite (Get_peers_step keyA a p [] wA c pt Hc Hl Hd); [|by rewrite Hbody].
  cbn [Get_peers ret fst snd]. unfold after_fetch, inbox_of. cbn.
  rewrite !lookup_insert_eq, Hrest. done.
Qed.

(** X15: [OnPeer] decides who the next broadcast goes to.  After
    [OnPeer p], on sound connections, a broadcast writes the tag and the
    message once to every peer of the registry with [p] under its
    address, [p] being among them; a peer that was registered under the
    same address before has been replaced and is not written to. *)
Theorem broadcast_reaches_whom_OnPeer_registered w p msg buf :
  gob_encode msg = Ok buf ->
  all_healthy w ->
  healthy w p ->
  exists ps,
    ps ≡ₚ map_to_list (<[RemoteAddr p := p]> (peers w))
    /\ broadcast msg (fst (OnPeer p w))
       = (emit_nets (control_writes buf ps)
            (emit_sync PeersRange
               (set_rangeOracle (tl (rangeOracle w)) (fst (OnPeer p w)))), Ok tt)
    /\ wire (fst (broadcast msg (fst (OnPeer p w))))
       = wire w ++ control_writes buf ps
    /\ (RemoteAddr p, p) ∈ ps
    /\ (forall q, (RemoteAddr p, q) ∈ ps -> q = p).
Proof.
  intros He Hh Hp. rewrite OnPeer_world. cbn [fst].
  set (w1 := emit_sync Unlock _).
  assert (Hps : peers w1 = <[RemoteAddr p := p]> (peers w)) by reflexivity.
  assert (Hh1 : all_healthy w1).
  { intros a q Hq. apply (healthy_same_conns w); [done|].
    rewrite Hps in Hq. destruct (decide (a = RemoteAddr p)) as [->|Hne].
    - rewrite lookup_insert_eq in Hq. by injection Hq as <-.
    - rewrite lookup_insert_ne in Hq by done. by eapply Hh. }
  exists (range_order w1).
  assert (Hperm : range_order w1 ≡ₚ map_to_list (<[RemoteAddr p := p]> (peers w)))
    by (rewrite <- Hps; apply range_order_perm).
  rewrite (broadcast_healthy msg buf w1 He Hh1). cbn [fst].
  split_and!; [done|done|done| |].
  - apply range_order_registered. rewrite Hps. apply lookup_insert_eq.
  - intros q Hq. apply range_order_registered in Hq.
    rewrite Hps, lookup_insert_eq in Hq. by injection Hq.
Qed.

End Discipline.

(** ** The loop and the quit channel *)

Section Quit.
Context {gob : Gob} {cipher : CipherStream} {tags : Tags}.

Lemma loop_units units rest w :
  loop (map Consume units ++ rest) w = loop rest (run_units units w).
Proof.
  revert w. induction units as [|u units IH]; intros w; [done|].
  cbn [map app]. rewrite loop_Consume. apply IH.
Qed.

Lemma run_units_control units w : control (run_units units w) = control w.
Proof.
  revert w. induction units as [|u units IH]; intros w; [done|].
  cbn. etrans; [apply IH|]. apply keeps_loop_body.
Qed.

(** X16: what [loop] does once [Stop] was called.  The units that the
    select takes before it takes the closed quit channel are handled one
    after the other; then the loop returns, after the deferred log line
    and the closing of the transport; the units that were still to come
    are never handled.  With units only, the loop handles them all and
    is left waiting. *)
Theorem loop_after_Stop_handles_the_units_taken_before_quit units post w :
  loop (map Consume units ++ QuitCh :: post) (fst (Stop w))
  = (set_transportClosed true
       (emit_line Stopped (run_units units (fst (Stop w)))), Ok true)
  /\ loop (map Consume units) w = (run_units units w, Ok false).
Proof.
  split.
  - assert (Hq1 : quitCh (fst (Stop w)) = true) by reflexivity.
    set (w1 := fst (Stop w)) in *. clearbody w1.
    rewrite loop_units. cbn [loop]. unfold bind, ask.
    pose proof (run_units_control units w1) as Hc.
    unfold control in Hc. injection Hc as _ Hq _. rewrite Hq, Hq1. reflexivity.
  - rewrite <- (app_nil_r (map Consume units)). by rewrite loop_units.
Qed.

Lemma call_keeps_quit c w :
  is_Stop c = false ->
  quitCh (call c w) = quitCh w
  /\ (quitCh w = false -> transportClosed (call c w) = transportClosed w).
Proof.
  intros Hc. destruct c as [key r|key|p| |sel]; cbn [call]; try done.
  - pose proof (keeps_Store key r w) as H. by injection H.
  - pose proof (keeps_Get key w) as H. by injection H.
  - destruct (loop_outcome sel w) as (b & _ & Hb & _ & Hq & Ht).
    split; [done|]. intros Hq0. rewrite Ht.
    destruct b; [|done]. destruct Hb as [Hb _]. rewrite Hq0 in Hb.
    by destruct Hb.
Qed.

(** X17: nothing but [Stop] stops the node.  Along any sequence of
    calls without [Stop] (stores, fetches, new peers, and the loop
    handling any units, whatever the peers sent), the quit channel stays
    open and the transport is not closed. *)
Theorem only_Stop_closes_the_quit_channel cs w :
  quitCh w = false ->
  Forall (fun c => is_Stop c = false) cs ->
  quitCh (calls cs w) = false
  /\ transportClosed (calls cs w) = transportClosed w.
Proof.
  revert w. induction cs as [|c cs IH]; intros w Hq Hall; [done|].
  apply Forall_cons in Hall as [Hc Hall].
  destruct (call_keeps_quit c w Hc) as [H1 H2].
  change (calls (c :: cs) w) with (calls cs (call c w)).
  destruct (IH (call c w)) as [H3 H4]; [by rewrite H1|done|].
  split; [done|]. rewrite H4. by apply H2.
Qed.

(** X18: a node without peers.  [NewFileServer] gives a node with an
    empty registry, an open quit channel and the blobs that are on its
    disk.  On any node with an empty registry, [Get] of a key that is
    not on the disk writes to nobody, pauses, finds nothing to read and
    returns the error of the store, which is left as it was. *)
Theorem Get_without_peers_finds_nothing w key buf :
  peers w = ∅ ->
  blobs (store w) !! key = None ->
  gob_encode (mkMessage (Some (MessageGetFile key))) = Ok buf ->
  snd (Get key w) = Err (ErrNotExist key)
  /\ wire (fst (Get key w)) = wire w ++ [Slept 500]
  /\ store (fst (Get key w)) = store w
  /\ (forall encKey disk cs oracle,
        peers (NewFileServer encKey disk cs oracle) = ∅
        /\ quitCh (NewFileServer encKey disk cs oracle) = false
        /\ blobs (store (NewFileServer encKey disk cs oracle)) = disk).
Proof.
  intros Hp Hk He. unfold Get.
  erewrite bind_Ok.
  2:{ unfold store_Has, ask. rewrite Hk.
      rewrite bool_decide_eq_false_2 by (by intros [? ?]). reflexivity. }
  cbv beta iota. erewrite bind_Ok by reflexivity.
  erewrite bind_Ok.
  2:{ unfold broadcast. erewrite bind_Ok by (unfold lift; rewrite He; reflexivity).
      erewrite bind_Ok by (by apply range_peers_empty). reflexivity. }
  erewrite bind_Ok by reflexivity.
  erewrite bind_Ok by (by apply range_peers_empty).
  erewrite bind_Ok by reflexivity.
  unfold bind, store_Read. cbn. rewrite Hk. done.
Qed.

End Quit.

(** ** From one node to another and back *)

Section RoundTrip.
Context {gob : Gob} {cipher : CipherStream} {tags : Tags}.

Lemma single_peer_range w a p :
  map_to_list (peers w) = [(a, p)] -> range_order w = [(a, p)].
Proof.
  intros Hm. pose proof (range_order_perm w) as P. rewrite Hm in P.
  by apply Permutation_singleton_r in P.
Qed.

Lemma single_peer_healthy w a p :
  map_to_list (peers w) = [(a, p)] -> healthy w p -> all_healthy w.
Proof.
  intros Hm Hh a' p' Hp'. apply elem_of_map_to_list in Hp'.
  rewrite Hm in Hp'. apply list_elem_of_singleton in Hp'.
  by injection Hp' as -> ->.
Qed.

(** What [Store] writes to the only peer of a node. *)
Lemma Store_single_peer w key r buf a p :
  diskFault (store w) = false ->
  gob_encode (mkMessage (Some (MessageStoreFile key
                (wrap64 (Z.of_nat (length r) + 16))))) = Ok buf ->
  map_to_list (peers w) = [(a, p)] ->
  healthy w p ->
  snd (Store key r w) = Ok tt
  /\ outbox (pid p) (wire_since w (fst (Store key r w)))
     = [IncomingMessage] ++ buf ++ [IncomingStream] ++ encrypt (EncKey w) r.
Proof.
  intros Hd He Hm Hh.
  destruct (Store_healthy w key r buf Hd He (single_peer_healthy w a p Hm Hh))
    as (w' & Hs & _ & Hw & _).
  rewrite Hs. cbn [fst snd]. split; [done|].
  unfold wire_since. rewrite Hw, drop_app_length.
  rewrite (single_peer_range w a p Hm).
  rewrite (single_peer_range (set_rangeOracle (tl (rangeOracle w)) w) a p Hm).
  unfold control_writes, stream_writes. cbn [flat_map map app snd].
  rewrite !outbox_Sent_same. cbn [outbox]. rewrite ?Nat.eqb_refl.
  cbn [app]. by rewrite ?app_nil_r.
Qed.

(** The loop taking an announcement from a peer whose stream waits on
    the connection. *)
Lemma loop_body_announcement w from b key Size q c :
  gob_decode b = (mkMessage (Some (MessageStoreFile key Size)), None) ->
  peers w !! from = Some q ->
  conns w !! pid q = Some c ->
  diskFault (store w) = false ->
  blobs (store (fst (loop_body (mkRPC from b) w))) !! key
  = Some (take (Z.to_nat Size) (inbox c))
  /\ diskFault (store (fst (loop_body (mkRPC from b) w))) = false
  /\ peers (fst (loop_body (mkRPC from b) w)) = peers w
  /\ conns (fst (loop_body (mkRPC from b) w))
     = <[pid q := mkConn (drop (Z.to_nat Size) (inbox c)) (credit c)]> (conns w).
Proof.
  intros Hdec Hp Hc Hd.
  destruct (handleMessageStoreFile_reads w from key Size q c Hp Hc Hd)
    as (w' & Hr & Hb & Hcs & _).
  assert (Hst : store w' = put key (take (Z.to_nat Size) (inbox c)) (store w)).
  { pose proof Hr as Hr'. unfold handleMessageStoreFile in Hr'.
    erewrite bind_Ok in Hr' by (unfold lookup_peer; by rewrite Hp).
    cbv beta iota in Hr'. erewrite bind_Ok in Hr'.
    2:{ unfold store_Write, when_disk_ok. cbn. rewrite Hd.
        unfold bind, peer_Read, conn_of. cbn. rewrite Hc. reflexivity. }
    by injection Hr' as <-. }
  assert (Hpe : peers w' = peers w).
  { pose proof (keeps_handleMessage from
                  (mkMessage (Some (MessageStoreFile key Size))) w) as K.
    unfold handleMessage in K. cbn [Payload] in K. rewrite Hr in K.
    by injection K. }
  unfold loop_body. erewrite bind_Ok.
  2:{ unfold decode_Message. cbn [rpcPayload]. by rewrite Hdec. }
  cbn [From]. unfold handleMessage. cbn [Payload]. rewrite Hr. cbn [fst].
  split_and!; [|by rewrite Hst|done|done].
  rewrite Hb. apply lookup_insert_eq.
Qed.

(** The loop taking a request for a blob it holds, on a sound
    connection. *)
Lemma loop_body_request w from b key bs q :
  gob_decode b = (mkMessage (Some (MessageGetFile key)), None) ->
  blobs (store w) !! key = Some bs ->
  peers w !! from = Some q ->
  healthy w q ->
  outbox (pid q) (wire_since w (fst (loop_body (mkRPC from b) w)))
  = IncomingStream :: putInt64 (Z.of_nat (length bs)) ++ bs.
Proof.
  intros Hdec Hk Hp Hh.
  destruct (handleMessageGetFile_healthy _ _ _ _ _ Hk Hp Hh) as (w' & Hr & Hw).
  unfold loop_body. erewrite bind_Ok.
  2:{ unfold decode_Message. cbn [rpcPayload]. by rewrite Hdec. }
  cbn [From]. unfold handleMessage. cbn [Payload]. rewrite Hr. cbn [fst].
  unfold wire_since. rewrite Hw, drop_app_length.
  cbn [app]. rewrite !outbox_Sent_same. destruct bs as [|x bs].
  - by rewrite !app_nil_r.
  - rewrite outbox_Sent_same. simpl. by rewrite app_nil_r.
Qed.

(** [Get] on a node whose only peer has pushed the stream [ct]. *)
Lemma Get_single_peer w key buf a p c ct rest pt :
  blobs (store w) !! key = None ->
  diskFault (store w) = false ->
  gob_encode (mkMessage (Some (MessageGetFile key))) = Ok buf ->
  map_to_list (peers w) = [(a, p)] ->
  conns w !! pid p = Some c ->
  credit c = None ->
  inbox c = putInt64 (Z.of_nat (length ct)) ++ ct ++ rest ->
  Z.of_nat (length ct) < 2 ^ 63 ->
  decrypt (EncKey w) ct = Ok pt ->
  snd (Get key w) = Ok pt.
Proof.
  intros Hk Hd He Hm Hc Hcr Hi Hn Hdec.
  assert (Hh : all_healthy w)
    by (apply (single_peer_healthy w a p Hm); by exists c).
  destruct (answer_of_stream c ct rest Hi Hn) as (Hl & _ & Hbody & _).
  unfold Get.
  erewrite bind_Ok.
  2:{ unfold store_Has, ask. rewrite Hk.
      rewrite bool_decide_eq_false_2 by (by intros [? ?]). reflexivity. }
  cbv beta iota. erewrite bind_Ok by reflexivity.
  erewrite bind_Ok.
  2:{ apply broadcast_healthy; [done|].
      intros a' p' Hp'. eapply healthy_same_conns; [|by eapply Hh]. done. }
  erewrite bind_Ok by reflexivity.
  erewrite bind_Ok by reflexivity.
  set (w3 := emit_net (Slept 500) _).
  assert (Hr3 : range_order w3 = [(a, p)]) by (by apply single_peer_range).
  rewrite Hr3.
  set (w4 := emit_sync PeersRange _).
  erewrite bind_Ok.
  2:{ rewrite (Get_peers_step key a p [] w4 c pt Hc Hl Hd);
        [reflexivity|by rewrite Hbody]. }
  unfold bind, store_Read, after_fetch. cbn. by rewrite lookup_insert_eq.
Qed.

(** X19: a blob replicated by [Store] is fetched back by [Get].  Node A
    stores [D] and knows only B; B receives the announcement and finds
    on its connection to A what A wrote after it, less the stream tag;
    then B receives the request of a node C that does not hold the key
    and knows only B, and C finds on its connection to B the answer,
    less the stream tag.  With a codec that decodes what it encoded, a
    cipher whose output is 16 bytes longer than its input, and a key on
    C that decrypts what A encrypted: B keeps under the key the
    ciphertext, which is exactly the number of bytes announced, and
    [Get] on C returns [D]. *)
Theorem blob_replicated_by_Store_is_fetched_back_by_Get
    wA wB wC key D bufS bufG aB pB aA qA aC qC aB' pB' :
  gob_encode (mkMessage (Some (MessageStoreFile key
                (wrap64 (Z.of_nat (length D) + 16))))) = Ok bufS ->
  gob_decode bufS
  = (mkMessage (Some (MessageStoreFile key
                  (wrap64 (Z.of_nat (length D) + 16)))), None) ->
  gob_encode (mkMessage (Some (MessageGetFile key))) = Ok bufG ->
  gob_decode bufG = (mkMessage (Some (MessageGetFile key)), None) ->
  Z.of_nat (length (encrypt (EncKey wA) D)) = Z.of_nat (length D) + 16 ->
  Z.of_nat (length (encrypt (EncKey wA) D)) < 2 ^ 63 ->
  decrypt (EncKey wC) (encrypt (EncKey wA) D) = Ok D ->
  diskFault (store wA) = false ->
  map_to_list (peers wA) = [(aB, pB)] ->
  healthy wA pB ->
  diskFault (store wB) = false ->
  peers wB !! aA = Some qA ->
  peers wB !! aC = Some qC ->
  healthy wB qA ->
  healthy wB qC ->
  inbox_of (pid qA) wB
  = drop (2 + length bufS)
      (outbox (pid pB) (wire_since wA (fst (Store key D wA)))) ->
  blobs (store wC) !! key = None ->
  diskFault (store wC) = false ->
  map_to_list (peers wC) = [(aB', pB')] ->
  healthy wC pB' ->
  inbox_of (pid pB') wC
  = drop 1
      (outbox (pid qC)
         (wire_since (fst (loop_body (mkRPC aA bufS) wB))
            (fst (loop_body (mkRPC aC bufG)
                    (fst (loop_body (mkRPC aA bufS) wB)))))) ->
  snd (Store key D wA) = Ok tt
  /\ blobs (store (fst (loop_body (mkRPC aA bufS) wB))) !! key
     = Some (encrypt (EncKey wA) D)
  /\ snd (Get key wC) = Ok D.
Proof.
  intros HeS HdS HeG HdG Hlen Hlt Hdec HdA HmA HhA HdB HpA HpC HhBA HhBC HiB
    HkC HdC HmC HhC HiC.
  set (ct := encrypt (EncKey wA) D) in *.
  destruct (Store_single_peer wA key D bufS aB pB HdA HeS HmA HhA) as [HsA HoA].
  split; [exact HsA|].
  (* what waits on B's connection to A *)
  rewrite HoA in HiB. fold ct in HiB.
  assert (HiB' : inbox_of (pid qA) wB = ct).
  { rewrite HiB. rewrite (app_assoc [IncomingMessage] bufS).
    rewrite app_assoc. rewrite drop_app_length'; [done|].
    rewrite !length_app. cbn [length]. lia. }
  destruct HhBA as (cA & HcA & HcrA).
  assert (HinA : inbox cA = ct)
    by (rewrite <- HiB'; unfold inbox_of; by rewrite HcA).
  assert (Hsize : wrap64 (Z.of_nat (length D) + 16) = Z.of_nat (length ct))
    by (rewrite wrap64_id; lia).
  rewrite Hsize in HdS.
  destruct (loop_body_announcement wB aA bufS key (Z.of_nat (length ct)) qA cA
              HdS HpA HcA HdB) as (Hb1 & Hd1 & Hp1 & Hc1).
  set (wB1 := fst (loop_body (mkRPC aA bufS) wB)) in *.
  rewrite Nat2Z.id, HinA, firstn_all in Hb1.
  split; [exact Hb1|].
  (* what B answers to C *)
  assert (HhBC1 : healthy wB1 qC).
  { destruct HhBC as (cC & HcC & HcrC). unfold healthy. rewrite Hc1.
    destruct (decide (pid qC = pid qA)) as [E|E].
    - rewrite E, lookup_insert_eq. eexists. split; [done|]. done.
    - rewrite lookup_insert_ne by done. by exists cC. }
  assert (HpC1 : peers wB1 !! aC = Some qC) by (by rewrite Hp1).
  rewrite (loop_body_request wB1 aC bufG key ct qC HdG Hb1 HpC1 HhBC1) in HiC.
  cbn [drop] in HiC. rewrite drop_0 in HiC.
  destruct HhC as (cB & HcB & HcrB).
  assert (HinB : inbox cB = putInt64 (Z.of_nat (length ct)) ++ ct ++ [])
    by (rewrite app_nil_r, <- HiC; unfold inbox_of; by rewrite HcB).
  apply (Get_single_peer wC key bufG aB' pB' cB ct [] D); done.
Qed.

End RoundTrip.

(** * The statements at the example nodes *)

Section Examples.
#[local] Existing Instances demo_gob demo_cipher demo_tags.


Lemma Get_serves_local_blob_without_network_witness :
  (Get key_x nodeB_with_x = (emit_line (ServingLocal key_x) nodeB_with_x, Ok demo_ct)
   /\ wire (fst (Get key_x nodeB_with_x)) = wire nodeB_with_x
   /\ conns (fst (Get key_x nodeB_with_x)) = conns nodeB_with_x
   /\ sync (fst (Get key_x nodeB_with_x)) = sync nodeB_with_x)
  /\ (wire (fst (Store key_x demo_data node0)) = wire node0 ++ [Slept 5]
      /\ Get key_x (fst (Store key_x demo_data node0))
         = (emit_line (ServingLocal key_x) (fst (Store key_x demo_data node0)),
            Ok demo_data)
      /\ wire (fst (Get key_x (fst (Store key_x demo_data node0))))
         = wire (fst (Store key_x demo_data node0))).
Proof.
  split.
  - apply (proj1 Get_serves_local_blob_without_network nodeB_with_x key_x demo_ct).
    vm_compute. reflexivity.
  - apply (proj2 Get_serves_local_blob_without_network node0 key_x demo_data
             (fst (Store key_x demo_data node0))).
    + vm_compute. reflexivity.
    + vm_compute. reflexivity.
Defined.


(** The ciphertext A pushes is what B's handler stores: B does not hold
    the data under the key, it holds its encryption. *)
Lemma pushed_ciphertext_is_stored_undecrypted :
  wire_since nodeA1 (fst (Store key_x demo_data nodeA1))
  = [Sent 0 [IncomingMessage]; Sent 0 demo_announce; Slept 5;
     Sent 0 [IncomingStream]; Sent 0 demo_ct]
  /\ gob_decode demo_announce = (mkMessage (Some (MessageStoreFile key_x 18)), None)
  /\ snd (loop [Consume (mkRPC (RemoteAddr peerA) demo_announce)] (nodeB demo_ct))
     = Ok false
  /\ blobs (store (fst (loop [Consume (mkRPC (RemoteAddr peerA) demo_announce)]
                          (nodeB demo_ct)))) !! key_x
     = Some demo_ct
  /\ decrypt demo_key demo_ct = Ok demo_data
  /\ blobs (store (fst (loop [Consume (mkRPC (RemoteAddr peerA) demo_announce)]
                          (nodeB demo_ct)))) !! key_x
     <> Some demo_data.
Proof. vm_compute. split_and!; try reflexivity. discriminate. Qed.

Lemma handleMessageStoreFile_stores_bytes_as_received_witness :
  exists w' body,
    handleMessageStoreFile (RemoteAddr peerA) key_x 18 (nodeB demo_ct) = (w', Ok tt)
    /\ body = take (Z.to_nat 18) demo_ct
    /\ Z.of_nat (length body) = 18
    /\ blobs (store w') !! key_x = Some body
    /\ conns w' !! pid peerA = Some (mkConn (drop (Z.to_nat 18) demo_ct) None)
    /\ wire_since (nodeB demo_ct) w'
       = [Received (pid peerA) body; StreamClosed (pid peerA)]
    /\ (forall encKey D rest,
          demo_ct = encrypt encKey D ++ rest ->
          18 = Z.of_nat (length (encrypt encKey D)) ->
          blobs (store w') !! key_x = Some (encrypt encKey D)).
Proof.
  apply (handleMessageStoreFile_stores_bytes_as_received
           (nodeB demo_ct) (RemoteAddr peerA) key_x 18 peerA (sound demo_ct)).
  - vm_compute. reflexivity.
  - vm_compute. reflexivity.
  - vm_compute. reflexivity.
  - vm_compute. split; discriminate.
Defined.

(** What [Store] pushes after the announcement is the stream tag and the
    ciphertext: read as a frame, its first 8 bytes announce no content
    while 10 more bytes follow. *)
Lemma Store_stream_carries_no_length :
  wire_since nodeA1 (fst (Store key_x demo_data nodeA1))
  = [Sent 0 [IncomingMessage]; Sent 0 demo_announce; Slept 5;
     Sent 0 [IncomingStream]; Sent 0 demo_ct]
  /\ outbox 0 [Sent 0 [IncomingStream]; Sent 0 demo_ct] = IncomingStream :: demo_ct
  /\ framed IncomingStream (IncomingStream :: demo_ct) = false.
Proof. vm_compute. split_and!; reflexivity. Qed.

Lemma content_streams_on_the_wire_witness :
  (snd (handleMessageGetFile (RemoteAddr peerA) key_x nodeB_with_x) = Ok tt
   /\ outbox (pid peerA)
        (wire_since nodeB_with_x
           (fst (handleMessageGetFile (RemoteAddr peerA) key_x nodeB_with_x)))
      = IncomingStream :: putInt64 (Z.of_nat (length demo_ct)) ++ demo_ct
   /\ framed IncomingStream
        (outbox (pid peerA)
           (wire_since nodeB_with_x
              (fst (handleMessageGetFile (RemoteAddr peerA) key_x nodeB_with_x))))
      = true)
  /\ (exists ps1 ps2,
        ps1 ≡ₚ map_to_list (peers nodeA)
        /\ ps2 ≡ₚ map_to_list (peers nodeA)
        /\ wire_since nodeA (fst (Store key_x demo_data nodeA))
           = control_writes demo_announce ps1
             ++ [Slept 5]
             ++ map (fun ap => Sent (pid (snd ap)) [IncomingStream]) ps2
             ++ map (fun ap => Sent (pid (snd ap)) (encrypt (EncKey nodeA) demo_data))
                  ps2).
Proof.
  split.
  - apply (proj1 content_streams_on_the_wire
             nodeB_with_x (RemoteAddr peerA) key_x demo_ct peerA).
    + vm_compute. reflexivity.
    + vm_compute. reflexivity.
    + apply healthyb_healthy. vm_compute. reflexivity.
    + vm_compute. reflexivity.
  - apply (proj2 content_streams_on_the_wire nodeA key_x demo_data demo_announce).
    + vm_compute. reflexivity.
    + vm_compute. reflexivity.
    + apply all_healthyb_all_healthy. vm_compute. reflexivity.
Defined.

Lemma Store_returns_error_of_local_write_and_of_any_failed_peer_write_witness :
  Store key_x demo_data node0_faulty = (node0_faulty, Err ErrDisk)
  /\ Store key_x demo_data nodeA_broken
     = (fst (broadcast (mkMessage (Some (MessageStoreFile key_x 18)))
               (set_store (put key_x demo_data) nodeA_broken)),
        Err (ErrConn 1))
  /\ (exists e, snd (Store key_x demo_data nodeA_breaking) = Err e)
  /\ (exists e, snd (Store key_x demo_data nodeA_broken) = Err e).
Proof.
  split_and!.
  - apply (proj1 (Store_returns_error_of_local_write_and_of_any_failed_peer_write
                    node0_faulty key_x demo_data)).
    vm_compute. reflexivity.
  - apply (proj1 (proj2
             (Store_returns_error_of_local_write_and_of_any_failed_peer_write
                nodeA_broken key_x demo_data))).
    + vm_compute. reflexivity.
    + vm_compute. reflexivity.
  - apply (proj1 (proj2 (proj2
             (Store_returns_error_of_local_write_and_of_any_failed_peer_write
                nodeA_breaking key_x demo_data)))).
    exists 1%nat, [IncomingStream]. apply list_elem_of_In.
    vm_compute. auto 10.
  - apply (proj2 (proj2 (proj2
             (Store_returns_error_of_local_write_and_of_any_failed_peer_write
                nodeA_broken key_x demo_data)))
             (RemoteAddr peerC) peerC).
    + vm_compute. reflexivity.
    + vm_compute. reflexivity.
Defined.

Lemma loop_logs_errors_and_stops_on_quit_witness :
  loop_body (mkRPC (RemoteAddr peerA) truncated_announce) (nodeB demo_ct)
  = (emit_line (DecodingError ErrGob) (nodeB demo_ct), Ok tt).
Proof.
  apply (proj1 (proj2 loop_logs_errors_and_stops_on_quit)
           (mkRPC (RemoteAddr peerA) truncated_announce) (nodeB demo_ct)
           (mkMessage None) ErrGob).
  - vm_compute. reflexivity.
  - reflexivity.
Defined.

(** C7: there is no [continue] after the decoding error is logged.  A
    unit whose bytes fail to decode only after the payload is in place is
    logged as a decoding error and handled all the same: here the damaged
    announcement makes the handler read the 18 bytes waiting on the
    connection and store them. *)
Theorem loop_handles_unit_that_failed_to_decode :
  gob_decode damaged_announce
  = (mkMessage (Some (MessageStoreFile key_x 18)), Some ErrGob)
  /\ snd (loop [Consume (mkRPC (RemoteAddr peerA) damaged_announce)]
            (nodeB demo_ct)) = Ok false
  /\ console (fst (loop [Consume (mkRPC (RemoteAddr peerA) damaged_announce)]
                     (nodeB demo_ct)))
     = console (nodeB demo_ct) ++ [DecodingError ErrGob; WrittenToDisk 18]
  /\ wire_since (nodeB demo_ct)
       (fst (loop [Consume (mkRPC (RemoteAddr peerA) damaged_announce)]
               (nodeB demo_ct)))
     = [Received 0 demo_ct; StreamClosed 0]
  /\ blobs (store (nodeB demo_ct)) !! key_x = None
  /\ blobs (store (fst (loop [Consume (mkRPC (RemoteAddr peerA) damaged_announce)]
                          (nodeB demo_ct)))) !! key_x
     = Some demo_ct.
Proof. vm_compute. split_and!; reflexivity. Qed.

Lemma registry_changes_only_in_OnPeer_and_never_shrinks_witness :
  peers (call (CallStore key_x demo_data) nodeA) = peers nodeA.
Proof.
  apply (proj1 (proj2 registry_changes_only_in_OnPeer_and_never_shrinks)
           (CallStore key_x demo_data) nodeA).
  reflexivity.
Defined.

Lemma broadcast_and_Store_range_without_lock_witness :
  (sync_since nodeA
     (fst (broadcast (mkMessage (Some (MessageGetFile key_x))) nodeA))
   = [PeersRange]
   /\ guarded false
        (sync_since nodeA
           (fst (broadcast (mkMessage (Some (MessageGetFile key_x))) nodeA)))
      = false)
  /\ (sync_since nodeA (fst (Store key_x demo_data nodeA))
      = [PeersRange; PeersRange]
      /\ guarded false (sync_since nodeA (fst (Store key_x demo_data nodeA)))
         = false).
Proof.
  split.
  - apply (proj1 broadcast_and_Store_range_without_lock
             nodeA (mkMessage (Some (MessageGetFile key_x))) demo_request).
    vm_compute. reflexivity.
  - apply (proj2 broadcast_and_Store_range_without_lock
             nodeA key_x demo_data demo_announce).
    + vm_compute. reflexivity.
    + vm_compute. reflexivity.
    + apply all_healthyb_all_healthy. vm_compute. reflexivity.
Defined.

Lemma handleMessageGetFile_absent_key_is_silent_witness :
  handleMessageGetFile (RemoteAddr peerA) key_x (nodeB [])
  = (nodeB [], Err (ErrNeedToServe key_x))
  /\ (forall rpc,
        From rpc = RemoteAddr peerA ->
        gob_decode (rpcPayload rpc) = (mkMessage (Some (MessageGetFile key_x)), None) ->
        loop_body rpc (nodeB [])
          = (emit_line (HandleMessageError (ErrNeedToServe key_x)) (nodeB []), Ok tt)
        /\ wire (fst (loop_body rpc (nodeB []))) = wire (nodeB [])
        /\ conns (fst (loop_body rpc (nodeB []))) = conns (nodeB [])).
Proof.
  apply (handleMessageGetFile_absent_key_is_silent
           (nodeB []) (RemoteAddr peerA) key_x).
  vm_compute. reflexivity.
Defined.

Lemma Store_keeps_local_blob_whatever_replication_does_witness :
  store (fst (Store key_x demo_data nodeA_cut))
  = put key_x demo_data (store nodeA_cut)
  /\ blobs (store (fst (Store key_x demo_data nodeA_cut))) !! key_x
     = Some demo_data
  /\ (forall key', key' <> key_x ->
        blobs (store (fst (Store key_x demo_data nodeA_cut))) !! key'
        = blobs (store nodeA_cut) !! key').
Proof.
  apply (proj1 (Store_keeps_local_blob_whatever_replication_does
                  nodeA_cut key_x demo_data)).
  vm_compute. reflexivity.
Defined.

Lemma Store_then_Get_returns_last_content_witness :
  Get key_x (fst (Store key_x demo_data nodeA_cut))
  = (emit_line (ServingLocal key_x) (fst (Store key_x demo_data nodeA_cut)),
     Ok demo_data)
  /\ Get key_x (fst (Store key_x demo_ct (fst (Store key_x demo_data nodeA_cut))))
     = (emit_line (ServingLocal key_x)
          (fst (Store key_x demo_ct (fst (Store key_x demo_data nodeA_cut)))),
        Ok demo_ct).
Proof.
  apply (Store_then_Get_returns_last_content nodeA_cut key_x demo_data demo_ct).
  vm_compute. reflexivity.
Defined.

Lemma Get_leaves_what_it_returns_in_the_store_witness :
  blobs (store (fst (Get key_x (nodeB (putInt64 18 ++ demo_ct ++ [Byte.xff])))))
    !! key_x = Some demo_data
  /\ Get key_x (fst (Get key_x (nodeB (putInt64 18 ++ demo_ct ++ [Byte.xff]))))
     = (emit_line (ServingLocal key_x)
          (fst (Get key_x (nodeB (putInt64 18 ++ demo_ct ++ [Byte.xff])))),
        Ok demo_data).
Proof.
  apply (Get_leaves_what_it_returns_in_the_store
           (nodeB (putInt64 18 ++ demo_ct ++ [Byte.xff]))
           (fst (Get key_x (nodeB (putInt64 18 ++ demo_ct ++ [Byte.xff]))))
           key_x demo_data).
  vm_compute. reflexivity.
Defined.

Lemma operations_write_only_the_key_they_are_given_witness :
  blob_at key_y (fst (Get key_x (nodeB (putInt64 18 ++ demo_ct))))
  = blob_at key_y (nodeB (putInt64 18 ++ demo_ct))
  /\ (forall r,
        blob_at key_y (fst (Store key_x r (nodeB (putInt64 18 ++ demo_ct))))
        = blob_at key_y (nodeB (putInt64 18 ++ demo_ct)))
  /\ (forall from Size,
        blob_at key_y
          (fst (handleMessageStoreFile from key_x Size
                  (nodeB (putInt64 18 ++ demo_ct))))
        = blob_at key_y (nodeB (putInt64 18 ++ demo_ct)))
  /\ (forall from k,
        store (fst (handleMessageGetFile from k (nodeB (putInt64 18 ++ demo_ct))))
        = store (nodeB (putInt64 18 ++ demo_ct))).
Proof.
  apply (operations_write_only_the_key_they_are_given
           (nodeB (putInt64 18 ++ demo_ct)) key_x key_y).
  vm_compute. discriminate.
Defined.




Lemma broadcast_stops_at_first_broken_connection_witness :
  snd (broadcast (mkMessage (Some (MessageGetFile key_x))) nodeA_cut)
  = Err (ErrConn (pid peerC))
  /\ wire_since nodeA_cut
       (fst (broadcast (mkMessage (Some (MessageGetFile key_x))) nodeA_cut))
     = control_writes demo_request [(RemoteAddr peerB, peerB)]
       ++ [SendFailed (pid peerC) [IncomingMessage];
           SendFailed (pid peerC) demo_request]
  /\ conns (fst (broadcast (mkMessage (Some (MessageGetFile key_x))) nodeA_cut))
     = conns nodeA_cut.
Proof.
  apply (broadcast_stops_at_first_broken_connection
           (mkMessage (Some (MessageGetFile key_x))) demo_request nodeA_cut
           [(RemoteAddr peerB, peerB)] (RemoteAddr peerC) peerC []).
  - vm_compute. reflexivity.
  - vm_compute. reflexivity.
  - repeat constructor. apply healthyb_healthy. vm_compute. reflexivity.
  - vm_compute. reflexivity.
Defined.

Lemma Store_interrupted_by_broken_connection_witness :
  snd (Store key_x demo_data nodeA_cut) = Err (ErrConn (pid peerC))
  /\ blobs (store (fst (Store key_x demo_data nodeA_cut))) !! key_x
     = Some demo_data
  /\ wire (fst (Store key_x demo_data nodeA_cut))
     = wire nodeA_cut
       ++ control_writes demo_announce [(RemoteAddr peerB, peerB)]
       ++ [SendFailed (pid peerC) [IncomingMessage];
           SendFailed (pid peerC) demo_announce].
Proof.
  apply (Store_interrupted_by_broken_connection
           nodeA_cut key_x demo_data demo_announce
           [(RemoteAddr peerB, peerB)] (RemoteAddr peerC) peerC []).
  - vm_compute. reflexivity.
  - vm_compute. reflexivity.
  - vm_compute. reflexivity.
  - repeat constructor. apply healthyb_healthy. vm_compute. reflexivity.
  - vm_compute. reflexivity.
Defined.

Lemma Get_gives_up_when_the_request_cannot_be_sent_witness :
  (exists e, snd (Get key_x nodeA_cut) = Err e)
  /\ store (fst (Get key_x nodeA_cut)) = store nodeA_cut
  /\ not_writes (fst (Get key_x nodeA_cut)) = not_writes nodeA_cut
  /\ (forall n, inbox_of n (fst (Get key_x nodeA_cut)) = inbox_of n nodeA_cut).
Proof.
  apply (Get_gives_up_when_the_request_cannot_be_sent
           nodeA_cut key_x (RemoteAddr peerC) peerC).
  - vm_compute. reflexivity.
  - vm_compute. reflexivity.
  - vm_compute. reflexivity.
Defined.


Lemma Get_reads_back_the_answer_of_handleMessageGetFile_witness :
  outbox (pid peerA)
    (wire_since nodeB_with_x
       (fst (handleMessageGetFile (RemoteAddr peerA) key_x nodeB_with_x)))
  = IncomingStream :: putInt64 (Z.of_nat (length demo_ct)) ++ demo_ct
  /\ snd (Get_peers key_x [(RemoteAddr peerA, peerA)]
            (nodeB (putInt64 18 ++ demo_ct ++ [Byte.xff]))) = Ok tt
  /\ blobs (store (fst (Get_peers key_x [(RemoteAddr peerA, peerA)]
                          (nodeB (putInt64 18 ++ demo_ct ++ [Byte.xff])))))
       !! key_x = Some demo_data
  /\ inbox_of (pid peerA)
       (fst (Get_peers key_x [(RemoteAddr peerA, peerA)]
               (nodeB (putInt64 18 ++ demo_ct ++ [Byte.xff]))))
     = [Byte.xff].
Proof.
  apply (Get_reads_back_the_answer_of_handleMessageGetFile
           nodeB_with_x (RemoteAddr peerA) key_x demo_ct peerA
           (nodeB (putInt64 18 ++ demo_ct ++ [Byte.xff]))
           (RemoteAddr peerA) peerA [Byte.xff] None key_x demo_data).
  - vm_compute. reflexivity.
  - vm_compute. reflexivity.
  - apply healthyb_healthy. vm_compute. reflexivity.
  - vm_compute. reflexivity.
  - vm_compute. reflexivity.
  - vm_compute. reflexivity.
  - vm_compute. reflexivity.
Defined.

Lemma broadcast_reaches_whom_OnPeer_registered_witness :
  exists ps,
    ps ≡ₚ map_to_list (<[RemoteAddr peerA := peerA]> (peers nodeA1))
    /\ broadcast (mkMessage (Some (MessageGetFile key_x))) (fst (OnPeer peerA nodeA1))
       = (emit_nets (control_writes demo_request ps)
            (emit_sync PeersRange
               (set_rangeOracle (tl (rangeOracle nodeA1)) (fst (OnPeer peerA nodeA1)))),
          Ok tt)
    /\ wire (fst (broadcast (mkMessage (Some (MessageGetFile key_x)))
                    (fst (OnPeer peerA nodeA1))))
       = wire nodeA1 ++ control_writes demo_request ps
    /\ (RemoteAddr peerA, peerA) ∈ ps
    /\ (forall q, (RemoteAddr peerA, q) ∈ ps -> q = peerA).
Proof.
  apply (broadcast_reaches_whom_OnPeer_registered
           nodeA1 peerA (mkMessage (Some (MessageGetFile key_x))) demo_request).
  - vm_compute. reflexivity.
  - apply all_healthyb_all_healthy. vm_compute. reflexivity.
  - apply healthyb_healthy. vm_compute. reflexivity.
Defined.

Lemma only_Stop_closes_the_quit_channel_witness :
  quitCh (calls [CallStore key_x demo_data;
                 CallLoop [Consume (mkRPC (RemoteAddr peerB) demo_request); QuitCh];
                 CallGet key_x] nodeA) = false
  /\ transportClosed
       (calls [CallStore key_x demo_data;
               CallLoop [Consume (mkRPC (RemoteAddr peerB) demo_request); QuitCh];
               CallGet key_x] nodeA)
     = transportClosed nodeA.
Proof.
  apply (only_Stop_closes_the_quit_channel
           [CallStore key_x demo_data;
            CallLoop [Consume (mkRPC (RemoteAddr peerB) demo_request); QuitCh];
            CallGet key_x] nodeA).
  - vm_compute. reflexivity.
  - repeat constructor.
Defined.

Lemma Get_without_peers_finds_nothing_witness :
  snd (Get key_x node0) = Err (ErrNotExist key_x)
  /\ wire (fst (Get key_x node0)) = wire node0 ++ [Slept 500]
  /\ store (fst (Get key_x node0)) = store node0
  /\ (forall encKey disk cs oracle,
        peers (NewFileServer encKey disk cs oracle) = ∅
        /\ quitCh (NewFileServer encKey disk cs oracle) = false
        /\ blobs (store (NewFileServer encKey disk cs oracle)) = disk).
Proof.
  apply (Get_without_peers_finds_nothing node0 key_x demo_request).
  - vm_compute. reflexivity.
  - vm_compute. reflexivity.
  - vm_compute. reflexivity.
Defined.

Lemma blob_replicated_by_Store_is_fetched_back_by_Get_witness :
  snd (Store key_x demo_data nodeA1) = Ok tt
  /\ blobs (store (fst (loop_body (mkRPC (RemoteAddr peerA) demo_announce)
                          nodeB_full))) !! key_x
     = Some (encrypt (EncKey nodeA1) demo_data)
  /\ snd (Get key_x nodeC) = Ok demo_data.
Proof.
  apply (blob_replicated_by_Store_is_fetched_back_by_Get
           nodeA1 nodeB_full nodeC key_x demo_data demo_announce demo_request
           (RemoteAddr peerB) peerB (RemoteAddr peerA) peerA
           (RemoteAddr peerC) peerC (RemoteAddr peerB) peerB).
  - vm_compute. reflexivity.
  - vm_compute. reflexivity.
  - vm_compute. reflexivity.
  - vm_compute. reflexivity.
  - vm_compute. reflexivity.
  - vm_compute. reflexivity.
  - vm_compute. reflexivity.
  - vm_compute. reflexivity.
  - vm_compute. reflexivity.
  - apply healthyb_healthy. vm_compute. reflexivity.
  - vm_compute. reflexivity.
  - vm_compute. reflexivity.
  - vm_compute. reflexivity.
  - apply healthyb_healthy. vm_compute. reflexivity.
  - apply healthyb_healthy. vm_compute. reflexivity.
  - vm_compute. reflexivity.
  - vm_compute. reflexivity.
  - vm_compute. reflexivity.
  - vm_compute. reflexivity.
  - apply healthyb_healthy. vm_compute. reflexivity.
  - vm_compute. reflexivity.
Defined.

End Examples.
